(** * A sequential model of the asynchronous local cache ([local.go])

    The cache of [local.go] is a concurrent lookup table whose callers
    communicate with a single maintenance goroutine through three bounded
    channels.  This development embeds the code of [local.go] as state
    passing functions over an explicit store:

    - entries are heap objects; every [*entry] of the Go code is an address
      into [heap], so that the hash table, the policy list, the channels and
      a pending refresh task alias the same object;
    - a call either returns, parks on a full channel, or panics
      ([outcome]);
    - the calls to the stats counter, to the listeners and to the executor
      are recorded in the order in which the code makes them.

    One operation of the facade runs without interleaving; the interleaving
    of goroutines that matters for the refresh flag is modelled separately
    by a step relation (module [RefreshProtocol]). *)

From stdpp Require Import gmap list strings.

#[local] Set Default Proof Using "Type".

Open Scope Z_scope.

(** ** Constants of [local.go] *)

Definition maximumCapacity : Z := Z.shiftl 1 30.
Definition chanBufSize : Z := 16.
Definition drainMax : Z := 16.
Definition drainThreshold : Z := 64.

(** ** Basic types

    [Key] and [Value] are [interface{}] in Go; the model takes integers for
    both.  A [Value] result that may be Go's [nil] is an [option Value].
    An [error] is its message; the [nil] error is [None]. *)

Abbreviation Key := Z (only parsing).
Abbreviation Value := Z (only parsing).
Abbreviation error := string (only parsing).

(** [time.Time] is represented by the instant's Unix time in nanoseconds and
    [time.Duration] by its nanosecond count.  [Add] and [UnixNano] follow the
    documented contract of the standard library on the instants whose
    nanosecond count [UnixNano] can represent; [Sub] saturates as
    [Time.Sub] does. *)

Abbreviation Time := Z (only parsing).
Abbreviation Duration := Z (only parsing).

Definition minDuration : Z := - 2 ^ 63.
Definition maxDuration : Z := 2 ^ 63 - 1.

Definition Add (t : Time) (d : Duration) : Time := t + d.
Definition UnixNano (t : Time) : Z := t.
Definition Sub (t u : Time) : Duration :=
  Z.max minDuration (Z.min maxDuration (t - u)).

(** [atomic.AddInt32] wraps around on a 32-bit signed counter. *)
Definition wrap32 (z : Z) : Z := (z + 2 ^ 31) mod 2 ^ 32 - 2 ^ 31.

(** ** Entries

    Modelled from the spec: the [entry] type and its accessors live in a
    file of the repository that is not part of [local.go].  Section 3 of the
    specification lists the fields; [setLoading true] is the atomic
    transition of [loading] from false to true and reports whether it was
    this call that made it. *)

Record entry := mkEntry {
  key : Key;
  hash : Z;
  value : Value;
  accessTime : Z;
  writeTime : Z;
  invalidated : bool;
  loading : bool
}.

Definition newEntry (k : Key) (v : Value) (h : Z) : entry :=
  mkEntry k h v 0 0 false false.

Definition setValue (v : Value) (e : entry) : entry :=
  mkEntry (key e) (hash e) v (accessTime e) (writeTime e) (invalidated e) (loading e).
Definition setAccessTime (t : Z) (e : entry) : entry :=
  mkEntry (key e) (hash e) (value e) t (writeTime e) (invalidated e) (loading e).
Definition setWriteTime (t : Z) (e : entry) : entry :=
  mkEntry (key e) (hash e) (value e) (accessTime e) t (invalidated e) (loading e).
Definition setInvalidated (b : bool) (e : entry) : entry :=
  mkEntry (key e) (hash e) (value e) (accessTime e) (writeTime e) b (loading e).

(** The flag after [setLoading b], and whether the call changed it. *)
Definition setLoading (b : bool) (e : entry) : entry * bool :=
  if Bool.eqb (loading e) b then (e, false)
  else (mkEntry (key e) (hash e) (value e) (accessTime e) (writeTime e)
          (invalidated e) b, true).

(** ** User configuration

    The fields of [localCache] that are fixed once [init] has run.  A
    listener or an executor is a Go callback: the model keeps whether it is
    set and records its calls in the state.  The loader may be stateful; its
    first argument is the number of loader calls made before this one. *)

Definition LoaderFunc : Type := nat -> Key -> Value * option error.

Record localCache := mkLocalCache {
  policyName : string;
  expireAfterAccess : Duration;
  expireAfterWrite : Duration;
  refreshAfterWrite : Duration;
  onInsertion : bool;
  onRemoval : bool;
  loader : option LoaderFunc;
  exec : bool;
  cap : Z
}.

(** ** The store *)

Abbreviation addr := nat (only parsing).

Inductive StatEvent :=
| RecordHits (n : Z)
| RecordMisses (n : Z)
| RecordEviction
| RecordLoadSuccess (d : Duration)
| RecordLoadError (d : Duration).

(** How a refresh task was handed over: to a fresh goroutine or to the
    configured executor. *)
Inductive Submission :=
| GoRefresh (a : addr)
| ExecRefresh (a : addr).

Record state := mkState {
  heap : list entry;                 (* the entry objects, by address *)
  table : gmap Z nat;                (* c.cache: key to entry *)
  entries : list nat;                (* c.entries: the policy's access order *)
  addEntry : list nat;               (* channel contents, oldest first *)
  hitEntry : list nat;
  deleteEntry : list (option nat);   (* None is the nil message *)
  readCount : Z;
  stats : list StatEvent;            (* calls to c.stats, oldest first *)
  inserted : list (Key * Value);     (* calls to c.onInsertion *)
  removed : list (Key * Value);      (* calls to c.onRemoval *)
  tasks : list Submission;           (* refresh closures handed over *)
  clock : nat;                       (* number of currentTime() calls so far *)
  loads : nat                        (* number of loader calls so far *)
}.

Definition set_heap (f : list entry -> list entry) (s : state) : state :=
  mkState (f (heap s)) (table s) (entries s) (addEntry s) (hitEntry s)
    (deleteEntry s) (readCount s) (stats s) (inserted s) (removed s) (tasks s)
    (clock s) (loads s).
Definition set_table (f : gmap Z nat -> gmap Z nat) (s : state) : state :=
  mkState (heap s) (f (table s)) (entries s) (addEntry s) (hitEntry s)
    (deleteEntry s) (readCount s) (stats s) (inserted s) (removed s) (tasks s)
    (clock s) (loads s).
Definition set_entries (f : list nat -> list nat) (s : state) : state :=
  mkState (heap s) (table s) (f (entries s)) (addEntry s) (hitEntry s)
    (deleteEntry s) (readCount s) (stats s) (inserted s) (removed s) (tasks s)
    (clock s) (loads s).
Definition set_addEntry (f : list nat -> list nat) (s : state) : state :=
  mkState (heap s) (table s) (entries s) (f (addEntry s)) (hitEntry s)
    (deleteEntry s) (readCount s) (stats s) (inserted s) (removed s) (tasks s)
    (clock s) (loads s).
Definition set_hitEntry (f : list nat -> list nat) (s : state) : state :=
  mkState (heap s) (table s) (entries s) (addEntry s) (f (hitEntry s))
    (deleteEntry s) (readCount s) (stats s) (inserted s) (removed s) (tasks s)
    (clock s) (loads s).
Definition set_deleteEntry (f : list (option nat) -> list (option nat))
    (s : state) : state :=
  mkState (heap s) (table s) (entries s) (addEntry s) (hitEntry s)
    (f (deleteEntry s)) (readCount s) (stats s) (inserted s) (removed s)
    (tasks s) (clock s) (loads s).
Definition set_readCount (n : Z) (s : state) : state :=
  mkState (heap s) (table s) (entries s) (addEntry s) (hitEntry s)
    (deleteEntry s) n (stats s) (inserted s) (removed s) (tasks s)
    (clock s) (loads s).
Definition set_stats (f : list StatEvent -> list StatEvent) (s : state) : state :=
  mkState (heap s) (table s) (entries s) (addEntry s) (hitEntry s)
    (deleteEntry s) (readCount s) (f (stats s)) (inserted s) (removed s)
    (tasks s) (clock s) (loads s).
Definition set_inserted (f : list (Key * Value) -> list (Key * Value))
    (s : state) : state :=
  mkState (heap s) (table s) (entries s) (addEntry s) (hitEntry s)
    (deleteEntry s) (readCount s) (stats s) (f (inserted s)) (removed s)
    (tasks s) (clock s) (loads s).
Definition set_removed (f : list (Key * Value) -> list (Key * Value))
    (s : state) : state :=
  mkState (heap s) (table s) (entries s) (addEntry s) (hitEntry s)
    (deleteEntry s) (readCount s) (stats s) (inserted s) (f (removed s))
    (tasks s) (clock s) (loads s).
Definition set_tasks (f : list Submission -> list Submission) (s : state) : state :=
  mkState (heap s) (table s) (entries s) (addEntry s) (hitEntry s)
    (deleteEntry s) (readCount s) (stats s) (inserted s) (removed s)
    (f (tasks s)) (clock s) (loads s).
Definition set_clock (n : nat) (s : state) : state :=
  mkState (heap s) (table s) (entries s) (addEntry s) (hitEntry s)
    (deleteEntry s) (readCount s) (stats s) (inserted s) (removed s) (tasks s)
    n (loads s).
Definition set_loads (n : nat) (s : state) : state :=
  mkState (heap s) (table s) (entries s) (addEntry s) (hitEntry s)
    (deleteEntry s) (readCount s) (stats s) (inserted s) (removed s) (tasks s)
    (clock s) n.

(** ** Outcomes of a call

    A call returns a result, parks its goroutine on a channel whose buffer
    is full ([Blocked], with the state reached so far), or panics. *)

Inductive outcome (A : Type) :=
| Ret (a : A) (s : state)
| Blocked (s : state)
| Panicked (msg : string) (s : state).
Arguments Ret {A} a s.
Arguments Blocked {A} s.
Arguments Panicked {A} msg s.

Definition M (A : Type) : Type := state -> outcome A.

Definition ret {A} (a : A) : M A := fun s => Ret a s.
Definition bind {A B} (m : M A) (k : A -> M B) : M B :=
  fun s => match m s with
           | Ret a s' => k a s'
           | Blocked s' => Blocked s'
           | Panicked msg s' => Panicked msg s'
           end.
Definition panic {A} (msg : string) : M A := fun s => Panicked msg s.
Definition modify (f : state -> state) : M unit := fun s => Ret tt (f s).
Definition gets {A} (f : state -> A) : M A := fun s => Ret (f s) s.

Declare Scope cache_scope.
Delimit Scope cache_scope with cache.
Notation "'let*' x ':=' m 'in' k" := (bind m (fun x => k))
  (at level 10, x name, m at level 100, k at level 200, right associativity)
  : cache_scope.
Notation "m '>>' k" := (bind m (fun _ => k))
  (at level 60, right associativity) : cache_scope.
Open Scope cache_scope.

(** The state in which a call stopped, however it stopped. *)
Definition final {A} (o : outcome A) : state :=
  match o with Ret _ s | Blocked s | Panicked _ s => s end.

(** ** Heap accesses *)

Definition nilDeref : string :=
  "invalid memory address or nil pointer dereference".

Definition deref (a : addr) : M entry :=
  fun s => match heap s !! a with
           | Some e => Ret e s
           | None => Panicked nilDeref s
           end.

Definition update (a : addr) (f : entry -> entry) : M unit :=
  let* e := deref a in modify (set_heap (fun h => <[a := f e]> h)).

Definition alloc (e : entry) : M addr :=
  fun s => Ret (length (heap s)) (set_heap (fun h => h ++ [e]) s).

Definition casLoading (a : addr) (b : bool) : M bool :=
  let* e := deref a in
  modify (set_heap (fun h => <[a := fst (setLoading b e)]> h)) >>
  ret (snd (setLoading b e)).

(** ** Channels, stats, listeners *)

Definition hasRoom {A} (q : list A) : bool := Z.of_nat (length q) <? chanBufSize.

Definition sendAdd (a : addr) : M unit :=
  fun s => if hasRoom (addEntry s)
           then Ret tt (set_addEntry (fun q => q ++ [a]) s) else Blocked s.
Definition sendHit (a : addr) : M unit :=
  fun s => if hasRoom (hitEntry s)
           then Ret tt (set_hitEntry (fun q => q ++ [a]) s) else Blocked s.
Definition sendDelete (m : option addr) : M unit :=
  fun s => if hasRoom (deleteEntry s)
           then Ret tt (set_deleteEntry (fun q => q ++ [m]) s) else Blocked s.

Definition record (ev : StatEvent) : M unit :=
  modify (set_stats (fun l => l ++ [ev])).

Definition callOnRemoval (a : addr) : M unit :=
  let* e := deref a in modify (set_removed (fun l => l ++ [(key e, value e)])).
Definition callOnInsertion (a : addr) : M unit :=
  let* e := deref a in modify (set_inserted (fun l => l ++ [(key e, value e)])).

(** ** The hash table

    Modelled from the spec: the [cache] type is declared in another file of
    the repository.  Section 3 gives its operations: [get], [get-or-set]
    (insert if the key is absent, otherwise return the entry already there),
    [delete] by identity, [walk] and [len].  The hash is a function of the
    key, so the table of the model is indexed by the key alone; [walk]
    visits the entries the table holds when the walk begins. *)

Definition cache_get (k : Key) (h : Z) : M (option addr) :=
  gets (fun s => table s !! k).

Definition cache_len : M Z := gets (fun s => Z.of_nat (size (table s))).

Definition cache_getOrSet (a : addr) : M (option addr) :=
  let* e := deref a in
  let* old := gets (fun s => table s !! key e) in
  match old with
  | Some a' => ret (Some a')
  | None => modify (set_table (fun t => <[key e := a]> t)) >> ret None
  end.

Definition cache_delete (a : addr) : M unit :=
  let* e := deref a in
  let* cur := gets (fun s => table s !! key e) in
  if decide (cur = Some a) then modify (set_table (fun t => delete (key e) t))
  else ret tt.

Fixpoint forEach (f : addr -> M unit) (l : list addr) : M unit :=
  match l with
  | [] => ret tt
  | a :: l' => f a >> forEach f l'
  end.

Definition cache_walk (f : addr -> M unit) : M unit :=
  let* l := gets (fun s => snd <$> map_to_list (table s)) in forEach f l.

(** ** The replacement policy

    Modelled from the spec: the [policy] interface and its implementations
    (lru, slru, tinylfu) are in other files of the repository.  Section 4.3
    gives the contract used here.  The policy keeps its entries in
    access order, oldest first.  [remove] takes the entry out of the
    ordering and out of the hash table and returns it iff it was present;
    [walkAccess] visits the entries in that order until the callback
    answers false.  The callback may remove the entry it is given, so the
    walk runs over the order as it was when the walk began.  A Go closure
    that updates a captured local is a callback with an accumulator. *)

Definition policy_remove (a : addr) : M (option addr) :=
  let* l := gets entries in
  if decide (a ∈ l) then
    modify (set_entries (fun l => filter (fun b => b ≠ a) l)) >>
    cache_delete a >> ret (Some a)
  else ret None.

Fixpoint walkFrom {R} (f : addr -> R -> M (bool * R)) (l : list addr) (r : R)
    : M R :=
  match l with
  | [] => ret r
  | a :: l' =>
      let* br := f a r in
      if fst br then walkFrom f l' (snd br) else ret (snd br)
  end.

Definition policy_walkAccess {R} (f : addr -> R -> M (bool * R)) (r : R) : M R :=
  let* l := gets entries in walkFrom f l r.

(** ** The functions of [local.go] *)

Definition loaderMustBeSet : string := "cache loader function must be set".

Section LocalCache.

(** The key hash, the clock behind [currentTime] (its n-th call returns
    [currentTime n]), and the two policy operations whose effect depends
    on the policy chosen. *)
Variable sum : Key -> Z.
Variable currentTime : nat -> Time.
Variable policy_add : addr -> M (option addr).
Variable policy_hit : addr -> M unit.

Definition now : M Time :=
  fun s => Ret (currentTime (clock s)) (set_clock (S (clock s)) s).

Definition callLoader (ld : LoaderFunc) (k : Key) : M (Value * option error) :=
  fun s => Ret (ld (loads s) k) (set_loads (S (loads s)) s).

Definition isExpired (c : localCache) (en : entry) (now : Time) : bool :=
  if invalidated en then true
  else if (expireAfterAccess c >? 0)
          && (accessTime en <? UnixNano (Add now (- expireAfterAccess c)))
  then true
  else if (expireAfterWrite c >? 0)
          && (writeTime en <? UnixNano (Add now (- expireAfterWrite c)))
  then true
  else false.

Definition needRefresh (c : localCache) (en : entry) (now : Time) : bool :=
  if loading en then false
  else if refreshAfterWrite c >? 0 then
    let tm := writeTime en in
    if (tm >? 0) && (tm <? UnixNano (Add now (- refreshAfterWrite c)))
    then true else false
  else false.

Definition load (c : localCache) (k : Key) : M (option Value * option error) :=
  match loader c with
  | None => panic loaderMustBeSet
  | Some ld =>
      let* start := now in
      let* r := callLoader ld k in
      let* nw := now in
      let loadTime := Sub nw start in
      match snd r with
      | Some err => record (RecordLoadError loadTime) >> ret (None, Some err)
      | None =>
          record (RecordLoadSuccess loadTime) >>
          let* en := alloc (newEntry k (fst r) (sum k)) in
          update en (setWriteTime (UnixNano nw)) >>
          update en (setAccessTime (UnixNano nw)) >>
          sendAdd en >>
          ret (Some (fst r), None)
      end
  end.

(** Handing the closure [c.refresh(en)] to a goroutine or to the executor. *)
Definition submitRefresh (c : localCache) (en : addr) : M unit :=
  modify (set_tasks (fun l =>
    l ++ [if exec c then ExecRefresh en else GoRefresh en])).

Definition refreshAsync (c : localCache) (en : addr) : M unit :=
  match loader c with
  | None => panic loaderMustBeSet
  | Some _ =>
      let* won := casLoading en true in
      if won then submitRefresh c en else ret tt
  end.

(** The body of a refresh task, up to the deferred call. *)
Definition refreshBody (ld : LoaderFunc) (en : addr) : M unit :=
  let* start := now in
  let* e := deref en in
  let* r := callLoader ld (key e) in
  let* nw := now in
  let loadTime := Sub nw start in
  match snd r with
  | None =>
      record (RecordLoadSuccess loadTime) >>
      update en (setValue (fst r)) >>
      update en (setWriteTime (UnixNano nw)) >>
      sendAdd en
  | Some _ => record (RecordLoadError loadTime)
  end.

(** The deferred [setLoading(false)] runs when the function leaves, also
    by the panic of calling a nil loader (after the clock and the key have
    been read); it has not run while the goroutine is parked on
    [addEntry]. *)
Definition refresh (c : localCache) (en : addr) : M unit :=
  match loader c with
  | None =>
      let* start := now in
      let* e := deref en in
      casLoading en false >> panic nilDeref
  | Some ld => refreshBody ld en >> casLoading en false >> ret tt
  end.

Definition GetIfPresent (c : localCache) (k : Key) : M (option Value * bool) :=
  let* en := cache_get k (sum k) in
  match en with
  | None => record (RecordMisses 1) >> ret (None, false)
  | Some a =>
      let* nw := now in
      let* e := deref a in
      if isExpired c e nw then
        record (RecordMisses 1) >> sendDelete (Some a) >> ret (None, false)
      else
        record (RecordHits 1) >>
        update a (setAccessTime (UnixNano nw)) >>
        sendHit a >>
        let* e' := deref a in ret (Some (value e'), true)
  end.

Definition Put (c : localCache) (k : Key) (v : Value) : M unit :=
  let h := sum k in
  let* en := cache_get k h in
  let* nw := now in
  let* en' :=
    match en with
    | None =>
        let* a := alloc (newEntry k v h) in
        update a (setWriteTime (UnixNano nw)) >>
        update a (setAccessTime (UnixNano nw)) >>
        let* n := cache_len in
        if (cap c =? 0) || (n <? cap c) then
          let* cen := cache_getOrSet a in
          match cen with
          | Some ca => update ca (setValue v) >> ret ca
          | None => ret a
          end
        else ret a
    | Some a =>
        update a (setValue v) >>
        update a (setWriteTime (UnixNano nw)) >>
        ret a
    end in
  sendAdd en'.

Definition Invalidate (c : localCache) (k : Key) : M unit :=
  let* en := cache_get k (sum k) in
  match en with
  | Some a => update a (setInvalidated true) >> sendDelete (Some a)
  | None => ret tt
  end.

Definition InvalidateAll (c : localCache) : M unit :=
  cache_walk (fun a => update a (setInvalidated true)) >>
  sendDelete None.

Definition Get (c : localCache) (k : Key) : M (option Value * option error) :=
  let* en := cache_get k (sum k) in
  match en with
  | None => record (RecordMisses 1) >> load c k
  | Some a =>
      let* nw := now in
      let* e := deref a in
      (if isExpired c e nw then
         record (RecordMisses 1) >>
         match loader c with
         | None => sendDelete (Some a)
         | Some _ =>
             update a (setAccessTime (UnixNano nw)) >> refreshAsync c a
         end
       else
         record (RecordHits 1) >>
         update a (setAccessTime (UnixNano nw)) >>
         sendHit a) >>
      let* e' := deref a in ret (Some (value e'), None)
  end.

Definition Refresh (c : localCache) (k : Key) : M unit :=
  match loader c with
  | None => ret tt
  | Some _ =>
      let* en := cache_get k (sum k) in
      match en with
      | None => load c k >> ret tt
      | Some a => refreshAsync c a
      end
  end.

(** *** The maintenance goroutine *)

Definition add (c : localCache) (en : addr) : M unit :=
  let* remEn := policy_add en in
  (if onInsertion c then callOnInsertion en else ret tt) >>
  match remEn with
  | Some r =>
      record RecordEviction >>
      (if onRemoval c then callOnRemoval r else ret tt)
  | None => ret tt
  end.

Definition removeAll (c : localCache) : M unit :=
  if negb (onRemoval c) then cache_walk (fun en => cache_delete en)
  else cache_walk (fun en => cache_delete en >> callOnRemoval en).

Definition remove (c : localCache) (en : addr) : M unit :=
  let* r := policy_remove en in
  match r with
  | Some a => if onRemoval c then callOnRemoval a else ret tt
  | None => ret tt
  end.

Definition hit (c : localCache) (en : addr) : M unit := policy_hit en.

(** The callback of [expireEntries]; [remain] is the captured counter. *)
Definition expireVisit (c : localCache) (expire : Z) (en : addr) (remain : Z)
    : M (bool * Z) :=
  let* e := deref en in
  if accessTime e >=? expire then ret (false, remain)
  else
    remove c en >>
    record RecordEviction >>
    ret (remain - 1 >? 0, remain - 1).

Definition expireEntries (c : localCache) : M unit :=
  if expireAfterAccess c <=? 0 then ret tt
  else
    let* t := now in
    let expire := UnixNano (Add t (- expireAfterAccess c)) in
    policy_walkAccess (expireVisit c expire) drainMax >> ret tt.

Definition postReadCleanup (c : localCache) : M unit :=
  let* n := gets readCount in
  modify (set_readCount (wrap32 (n + 1))) >>
  if wrap32 (n + 1) >? drainThreshold then
    modify (set_readCount 0) >> expireEntries c
  else ret tt.

Definition postWriteCleanup (c : localCache) : M unit :=
  modify (set_readCount 0) >> expireEntries c.

(** One turn of the [select] loop of [processEntries], for the case that
    was chosen; the answer is whether the loop goes on. *)
Inductive Case := CloseCh | AddCh | HitCh | DeleteCh.

Definition recvAdd : M addr :=
  fun s => match addEntry s with
           | a :: q => Ret a (set_addEntry (fun _ => q) s)
           | [] => Blocked s
           end.
Definition recvHit : M addr :=
  fun s => match hitEntry s with
           | a :: q => Ret a (set_hitEntry (fun _ => q) s)
           | [] => Blocked s
           end.
Definition recvDelete : M (option addr) :=
  fun s => match deleteEntry s with
           | m :: q => Ret m (set_deleteEntry (fun _ => q) s)
           | [] => Blocked s
           end.

Definition processEntries (c : localCache) (ch : Case) : M bool :=
  match ch with
  | CloseCh => removeAll c >> ret false
  | AddCh =>
      let* en := recvAdd in add c en >> postWriteCleanup c >> ret true
  | HitCh =>
      let* en := recvHit in hit c en >> postReadCleanup c >> ret true
  | DeleteCh =>
      let* m := recvDelete in
      match m with
      | None => removeAll c
      | Some en => remove c en
      end >>
      postReadCleanup c >> ret true
  end.

End LocalCache.

(** ** Construction

    An option is a function on the configuration.  [WithStatsCounter] has
    no counterpart: the model records the calls made to whichever counter
    is installed. *)

Definition newLocalCache : localCache :=
  mkLocalCache "" 0 0 0 false false None false maximumCapacity.

Definition Option : Type := localCache -> localCache.

Definition WithMaximumSize (size : Z) : Option :=
  let size := if size <? 0 then 0 else size in
  let size := if size >? maximumCapacity then maximumCapacity else size in
  fun c => mkLocalCache (policyName c) (expireAfterAccess c) (expireAfterWrite c)
             (refreshAfterWrite c) (onInsertion c) (onRemoval c) (loader c)
             (exec c) size.

Definition WithRemovalListener : Option :=
  fun c => mkLocalCache (policyName c) (expireAfterAccess c) (expireAfterWrite c)
             (refreshAfterWrite c) (onInsertion c) true (loader c) (exec c) (cap c).

Definition WithExpireAfterAccess (d : Duration) : Option :=
  fun c => mkLocalCache (policyName c) d (expireAfterWrite c)
             (refreshAfterWrite c) (onInsertion c) (onRemoval c) (loader c)
             (exec c) (cap c).

Definition WithExpireAfterWrite (d : Duration) : Option :=
  fun c => mkLocalCache (policyName c) (expireAfterAccess c) d
             (refreshAfterWrite c) (onInsertion c) (onRemoval c) (loader c)
             (exec c) (cap c).

Definition WithRefreshAfterWrite (d : Duration) : Option :=
  fun c => mkLocalCache (policyName c) (expireAfterAccess c) (expireAfterWrite c)
             d (onInsertion c) (onRemoval c) (loader c) (exec c) (cap c).

Definition WithPolicy (name : string) : Option :=
  fun c => mkLocalCache name (expireAfterAccess c) (expireAfterWrite c)
             (refreshAfterWrite c) (onInsertion c) (onRemoval c) (loader c)
             (exec c) (cap c).

Definition WithExecutor : Option :=
  fun c => mkLocalCache (policyName c) (expireAfterAccess c) (expireAfterWrite c)
             (refreshAfterWrite c) (onInsertion c) (onRemoval c) (loader c)
             true (cap c).

Definition withInsertionListener : Option :=
  fun c => mkLocalCache (policyName c) (expireAfterAccess c) (expireAfterWrite c)
             (refreshAfterWrite c) true (onRemoval c) (loader c) (exec c) (cap c).

Definition New (options : list Option) : localCache :=
  fold_left (fun c opt => opt c) options newLocalCache.

Definition NewLoadingCache (ld : LoaderFunc) (options : list Option) : localCache :=
  fold_left (fun c opt => opt c) options
    (mkLocalCache "" 0 0 0 false false (Some ld) false maximumCapacity).

(** The store right after [init]. *)
Definition init : state :=
  mkState [] ∅ [] [] [] [] 0 [] [] [] [] 0%nat 0%nat.


(** ** Notions used to state the properties *)

(** The longest prefix whose elements satisfy [p]. *)
Fixpoint takeWhile {A} (p : A -> bool) (l : list A) : list A :=
  match l with
  | [] => []
  | x :: l' => if p x then x :: takeWhile p l' else []
  end.

(** The access time of the entry at [a], as the expiry sweep reads it. *)
Definition accessOf (h : list entry) (a : addr) : Z :=
  match h !! a with Some e => accessTime e | None => 0 end.

(** What [onRemoval] is called with for the entry at [a]. *)
Definition removalOf (h : list entry) (a : addr) : list (Key * Value) :=
  match h !! a with Some e => [(key e, value e)] | None => [] end.

(** Deleting the entry at [a] from the hash table, by identity. *)
Definition dropKey (h : list entry) (t : gmap Z nat) (a : addr) : gmap Z nat :=
  match h !! a with
  | Some e => if decide (t !! key e = Some a) then delete (key e) t else t
  | None => t
  end.

(** The entries one sweep takes out when the cutoff is [expire] and at most
    [remain] removals are allowed: the leading entries of the access order
    whose access time is below the cutoff. *)
Definition expiredPrefix (h : list entry) (expire : Z) (remain : Z)
    (l : list addr) : list addr :=
  take (Z.to_nat remain) (takeWhile (fun a => accessOf h a <? expire) l).

(** The entries one call of [expireEntries] takes out when the clock reads
    [t]. *)
Definition victims (c : localCache) (t : Time) (s : state) : list addr :=
  expiredPrefix (heap s) (t - expireAfterAccess c) drainMax (entries s).

(** The entry [Put] builds for an absent key. *)
Definition putEntry (sum : Key -> Z) (currentTime : nat -> Time)
    (k : Key) (v : Value) (s : state) : entry :=
  mkEntry k (sum k) v (UnixNano (currentTime (clock s)))
    (UnixNano (currentTime (clock s))) false false.

(** A call of the facade, or the run of a refresh task. *)
Inductive Call :=
| CallGet (k : Key)
| CallGetIfPresent (k : Key)
| CallPut (k : Key) (v : Value)
| CallInvalidate (k : Key)
| CallInvalidateAll
| CallRefresh (k : Key)
| RunRefresh (a : addr).

(** The state in which a call stops, however it stops. *)
Definition afterCall (sum : Key -> Z) (currentTime : nat -> Time)
    (c : localCache) (op : Call) (s : state) : state :=
  match op with
  | CallGet k => final (Get sum currentTime c k s)
  | CallGetIfPresent k => final (GetIfPresent sum currentTime c k s)
  | CallPut k v => final (Put sum currentTime c k v s)
  | CallInvalidate k => final (Invalidate sum c k s)
  | CallInvalidateAll => final (InvalidateAll c s)
  | CallRefresh k => final (Refresh sum currentTime c k s)
  | RunRefresh a => final (refresh currentTime c a s)
  end.

(** One step of the callers and of the refresh tasks; the maintenance
    goroutine takes no part. *)
Definition facadeStep (sum : Key -> Z) (currentTime : nat -> Time)
    (c : localCache) (s s' : state) : Prop :=
  exists op, s' = afterCall sum currentTime c op s.

(** The hash table maps [k] to the entry at [a], and that entry is
    invalidated. *)
Definition stuck (k : Key) (a : addr) (s : state) : Prop :=
  table s !! k = Some a /\
  exists e, heap s !! a = Some e /\ invalidated e = true.

Definition keepsStuck (k : Key) (a : addr) (s s' : state) : Prop :=
  stuck k a s -> stuck k a s'.

(** What a sweep of the policy leaves alone. *)
Definition sweepFrame (s s' : state) : Prop :=
  heap s' = heap s /\ addEntry s' = addEntry s /\ hitEntry s' = hitEntry s /\
  deleteEntry s' = deleteEntry s /\ readCount s' = readCount s /\
  inserted s' = inserted s /\ tasks s' = tasks s /\ loads s' = loads s.

(** Every entry the policy holds is an object of the heap, and no entry is
    held twice. *)
Definition policyOK (s : state) : Prop :=
  NoDup (entries s) /\
  forall a, a ∈ entries s -> exists e, heap s !! a = Some e.

(** Every key of the hash table maps to an entry object, and that entry
    carries the key. *)
Definition tableOK (s : state) : Prop :=
  forall k a, table s !! k = Some a ->
    exists e, heap s !! a = Some e /\ key e = k.

(** Two versions of an entry that differ at most in the access time. *)
Definition sameButAccess (e e' : entry) : Prop :=
  key e' = key e /\ hash e' = hash e /\ value e' = value e /\
  writeTime e' = writeTime e /\ invalidated e' = invalidated e /\
  loading e' = loading e.

(** The options of [local.go]. *)
Inductive isOption : Option -> Prop :=
| opt_MaximumSize n : isOption (WithMaximumSize n)
| opt_RemovalListener : isOption WithRemovalListener
| opt_ExpireAfterAccess d : isOption (WithExpireAfterAccess d)
| opt_ExpireAfterWrite d : isOption (WithExpireAfterWrite d)
| opt_RefreshAfterWrite d : isOption (WithRefreshAfterWrite d)
| opt_Policy name : isOption (WithPolicy name)
| opt_Executor : isOption WithExecutor
| opt_InsertionListener : isOption withInsertionListener.

(** The policy's order is ascending in the access times the entries carry. *)
Definition accessSorted (h : list entry) (l : list addr) : Prop :=
  forall i j a b, (i <= j)%nat -> l !! i = Some a -> l !! j = Some b ->
    accessOf h a <= accessOf h b.

(** A call keeps the relation [R] between the state it starts in and the
    state it stops in, however it stops. *)
Definition keeps {A} (R : state -> state -> Prop) (m : M A) : Prop :=
  forall s, R s (final (m s)).

(** The value of [f] in the store is not changed. *)
Definition unchanged {B} (f : state -> B) (s s' : state) : Prop := f s' = f s.

(** No key leaves the hash table. *)
Definition noKeyLost (s s' : state) : Prop :=
  forall k, is_Some (table s !! k) -> is_Some (table s' !! k).

(** No key enters the hash table. *)
Definition noKeyGained (s s' : state) : Prop :=
  forall k a, table s' !! k = Some a -> table s !! k = Some a.

(** A lookup that does not find its key: it answers not found, or it is
    parked on a full channel; it does not panic. *)
Definition notFound (o : outcome (option Value * bool)) : Prop :=
  match o with
  | Ret r _ => r = (None, false)
  | Blocked _ => True
  | Panicked _ _ => False
  end.

(** ** The refresh flag under interleaving

    Goroutines that act on one entry [a], at the grain of the accesses to
    its [loading] flag.  A caller of [refreshAsync] first runs
    [setLoading(true)] and then, if that call made the transition, hands the
    closure over; the closure runs the body of [refresh] and last the
    deferred [setLoading(false)]. *)

Module RefreshProtocol.

Inductive pc :=
| AtCas        (* in refreshAsync, before en.setLoading(true) *)
| AtSubmit     (* setLoading(true) answered true; closure not yet handed over *)
| InRefresh    (* a submitted closure, in the body of refresh *)
| AtDefer      (* body done; the deferred setLoading(false) is next *)
| Finished.

(** A goroutine that holds the right to refresh, or is a refresh. *)
Definition owns (p : pc) : nat :=
  match p with AtSubmit | InRefresh | AtDefer => 1 | _ => 0 end.

(** A submitted closure that has not completed. *)
Definition inFlight (p : pc) : nat :=
  match p with InRefresh | AtDefer => 1 | _ => 0 end.

Definition total (f : pc -> nat) (ps : list pc) : nat := sum_list_with f ps.

Definition isFor (a : addr) (t : Submission) : bool :=
  match t with GoRefresh b | ExecRefresh b => Nat.eqb a b end.

(** The number of refresh closures submitted for [a] so far. *)
Definition submitted (a : addr) (s : state) : nat :=
  length (filter (fun t => isFor a t = true) (tasks s)).

Definition flagOf (a : addr) (s : state) : option bool :=
  loading <$> (heap s !! a).

(** The store, the goroutines, and the number of completed refreshes. *)
Record conf := mkConf {
  store : state;
  procs : list pc;
  completed : nat
}.

Section Steps.
Variable currentTime : nat -> Time.
Variable c : localCache.
Variable a : addr.

Inductive step : conf -> conf -> Prop :=
| step_call s ps n :
    (* one more goroutine calls refreshAsync(a) *)
    step (mkConf s ps n) (mkConf s (ps ++ [AtCas]) n)
| step_cas s s' ps n i won :
    ps !! i = Some AtCas ->
    casLoading a true s = Ret won s' ->
    step (mkConf s ps n)
         (mkConf s' (<[i := if won then AtSubmit else Finished]> ps) n)
| step_submit s s' ps n i :
    ps !! i = Some AtSubmit ->
    submitRefresh c a s = Ret tt s' ->
    step (mkConf s ps n)
         (mkConf s' (<[i := Finished]> ps ++ [InRefresh]) n)
| step_body s s' ps n i ld :
    ps !! i = Some InRefresh ->
    loader c = Some ld ->
    refreshBody currentTime ld a s = Ret tt s' ->
    step (mkConf s ps n) (mkConf s' (<[i := AtDefer]> ps) n)
| step_defer s s' ps n i b :
    ps !! i = Some AtDefer ->
    casLoading a false s = Ret b s' ->
    step (mkConf s ps n) (mkConf s' (<[i := Finished]> ps) (S n))
| step_other s s' ps n :
    (* any other goroutine: it neither writes the flag of a nor submits
       a refresh of a *)
    flagOf a s' = flagOf a s ->
    submitted a s' = submitted a s ->
    step (mkConf s ps n) (mkConf s' ps n).

Definition reachable (x y : conf) : Prop := rtc step x y.

(** Before any call: the flag is clear and every goroutine is about to
    call [refreshAsync]. *)
Definition initial (x : conf) : Prop :=
  flagOf a (store x) = Some false /\
  Forall (fun p => p = AtCas) (procs x) /\
  completed x = 0%nat.
(** The flag is set exactly while one goroutine has won it and its
    refresh has not completed; every submitted refresh is either
    completed or in flight. *)
Definition balanced (n0 : nat) (x : conf) : Prop :=
  exists b,
    flagOf a (store x) = Some b /\
    Nat.b2n b = total owns (procs x) /\
    submitted a (store x) = (n0 + completed x + total inFlight (procs x))%nat.

(** The same goroutines at the grain of whole calls.  The store comes with
    the number of refresh closures that have been handed over and have not
    run yet, and the number that have run to their end.  A step is a call
    of [refreshAsync] on the entry that returns (the closures it hands over
    are those it adds to the task list), the run of one pending closure,
    [refresh], to its end, or a step of another goroutine that neither
    writes the flag nor submits a refresh of the entry. *)
Record calls := mkCalls {
  cstore : state;
  pendingRefreshes : nat;
  finished : nat
}.

Inductive callStep : calls -> calls -> Prop :=
| call_refreshAsync s s' p n :
    refreshAsync c a s = Ret tt s' ->
    callStep (mkCalls s p n)
             (mkCalls s' (p + (submitted a s' - submitted a s)) n)
| call_refresh s s' p n :
    refresh currentTime c a s = Ret tt s' ->
    callStep (mkCalls s (S p) n) (mkCalls s' p (S n))
| call_other s s' p n :
    flagOf a s' = flagOf a s ->
    submitted a s' = submitted a s ->
    callStep (mkCalls s p n) (mkCalls s' p n).

(** Before any call: the flag is clear and no closure is pending. *)
Definition initialCalls (y : calls) : Prop :=
  flagOf a (cstore y) = Some false /\
  pendingRefreshes y = 0%nat /\ finished y = 0%nat.

(** The flag is set exactly while one closure is pending. *)
Definition settled (n0 : nat) (y : calls) : Prop :=
  flagOf a (cstore y) = Some (bool_decide (pendingRefreshes y = 1%nat)) /\
  (pendingRefreshes y <= 1)%nat /\
  submitted a (cstore y) = (n0 + finished y + pendingRefreshes y)%nat.
End Steps.

End RefreshProtocol.

(** ** A concrete cache, used to exercise the statements *)

Module Sample.
Definition sum (k : Key) : Z := k.
(** The clock advances by ten nanoseconds per reading. *)
Definition currentTime (n : nat) : Time := 1000 + Z.of_nat n * 10.
(** A loader that fails on negative keys and doubles the others. *)
Definition ld : LoaderFunc :=
  fun _ k => if k <? 0 then (0, Some "negative key") else (2 * k, None).

Definition plain : localCache := WithMaximumSize 1 newLocalCache.
Definition loading : localCache := NewLoadingCache ld [WithExpireAfterAccess 5].

Definition e5 : entry := mkEntry 5 5 7 1000 1000 false false.
(** One entry, for key 5, known to the table and to the policy. *)
Definition one : state :=
  mkState [e5] {[ 5 := 0%nat ]} [0%nat] [] [] [] 0 [] [] [] [] 0%nat 0%nat.
(** The same store three clock readings later. *)
Definition later : state := set_clock 3 one.
(** A loading cache whose entries expire thirty nanoseconds after their
    last access, and the store four clock readings later. *)
Definition loading30 : localCache := NewLoadingCache ld [WithExpireAfterAccess 30].
Definition four : state := set_clock 4 one.
(** A store whose one entry has a key the loader fails on. *)
Definition eNeg : entry := mkEntry (-1) (-1) 7 1000 1000 false true.
Definition neg : state :=
  mkState [eNeg] {[ -1 := 0%nat ]} [0%nat] [] [] [] 0 [] [] [] [] 0%nat 0%nat.
(** A policy that admits every entry and evicts none. *)
Definition policy_add (a : addr) : M (option addr) := ret None.
Definition policy_hit (a : addr) : M unit := ret tt.


(** Two entries in access order: the first has outlived an access expiry of
    five nanoseconds at the fourth clock reading, the second has not. *)
Definition e6 : entry := mkEntry 6 6 8 1100 1100 false false.
Definition two : state :=
  mkState [e5; e6] {[ 5 := 0%nat; 6 := 1%nat ]} [0%nat; 1%nat] [] [] [] 0
    [] [] [] [] 3%nat 0%nat.
End Sample.

(** * Properties *)

(** ** Laws of the store *)

Lemma deref_Some a e s : heap s !! a = Some e -> deref a s = Ret e s.
Proof. intros H. unfold deref. by rewrite H. Qed.

Lemma update_Some a f e s :
  heap s !! a = Some e ->
  update a f s = Ret tt (set_heap (fun h => <[a := f e]> h) s).
Proof. intros H. unfold update, bind. by rewrite (deref_Some _ _ _ H). Qed.

Lemma alloc_lookup e s :
  heap (set_heap (fun h => h ++ [e]) s) !! length (heap s) = Some e.
Proof. simpl. by rewrite lookup_app_r, Nat.sub_diag by lia. Qed.

(** Setting a field of an entry right after allocating it is allocating
    the entry with the field set. *)
Lemma alloc_set e x s :
  set_heap (fun h => <[length (heap s) := x]> h) (set_heap (fun h => h ++ [e]) s)
  = set_heap (fun h => h ++ [x]) s.
Proof.
  unfold set_heap. simpl. f_equal.
  by rewrite insert_app_r_alt, Nat.sub_diag by lia.
Qed.

(** *** Running a call step by step *)

Lemma bind_ret {A B} (x : A) (k : A -> M B) s : bind (ret x) k s = k x s.
Proof. done. Qed.

Lemma bind_gets {A B} (f : state -> A) (k : A -> M B) s :
  bind (gets f) k s = k (f s) s.
Proof. done. Qed.

Lemma bind_modify {B} (f : state -> state) (k : unit -> M B) s :
  bind (modify f) k s = k tt (f s).
Proof. done. Qed.

Lemma bind_bind {A B C} (m : M A) (f : A -> M B) (g : B -> M C) s :
  bind (bind m f) g s = bind m (fun x => bind (f x) g) s.
Proof. unfold bind. by destruct (m s). Qed.

Lemma bind_record {B} ev (k : unit -> M B) s :
  bind (record ev) k s = k tt (set_stats (fun l => l ++ [ev]) s).
Proof. done. Qed.

Lemma bind_alloc {B} e (k : addr -> M B) s :
  bind (alloc e) k s = k (length (heap s)) (set_heap (fun h => h ++ [e]) s).
Proof. done. Qed.

Lemma bind_deref {B} a e (k : entry -> M B) s :
  heap s !! a = Some e -> bind (deref a) k s = k e s.
Proof. intros H. unfold bind. by rewrite (deref_Some _ _ _ H). Qed.

Lemma bind_update {B} a f e (k : unit -> M B) s :
  heap s !! a = Some e ->
  bind (update a f) k s = k tt (set_heap (fun h => <[a := f e]> h) s).
Proof. intros H. unfold bind. by rewrite (update_Some _ _ _ _ H). Qed.

Lemma bind_cache_get {B} key h (k : option addr -> M B) s :
  bind (cache_get key h) k s = k (table s !! key) s.
Proof. done. Qed.

Lemma bind_cache_len {B} (k : Z -> M B) s :
  bind cache_len k s = k (Z.of_nat (size (table s))) s.
Proof. done. Qed.

Lemma bind_casLoading {B} a b e (k : bool -> M B) s :
  heap s !! a = Some e ->
  bind (casLoading a b) k s =
    k (snd (setLoading b e))
      (set_heap (fun h => <[a := fst (setLoading b e)]> h) s).
Proof.
  intros H. unfold casLoading. rewrite bind_bind, (bind_deref _ _ _ _ H).
  by rewrite bind_bind, bind_modify, bind_ret.
Qed.

(** Reading the heap at an address that was just written. *)
Ltac heap_lookup :=
  simpl; apply list_lookup_insert_eq; rewrite ?length_insert;
  first [done | by eapply lookup_lt_Some].

Section Properties.

Variable sum : Key -> Z.
Variable currentTime : nat -> Time.

(** *** Freshness *)

(** The chain of early returns of [isExpired] is a disjunction. *)
Lemma isExpired_orb (c : localCache) (e : entry) (t : Time) :
  isExpired c e t =
    invalidated e
    || (expireAfterAccess c >? 0) && (accessTime e <? t - expireAfterAccess c)
    || (expireAfterWrite c >? 0) && (writeTime e <? t - expireAfterWrite c).
Proof.
  unfold isExpired, UnixNano, Add. rewrite !Z.add_opp_r.
  by destruct (invalidated e), (_ && _), (_ && _).
Qed.

(** C2: an entry is expired at time [t] exactly when it is invalidated, or
    access expiry is enabled and the access time is older than
    [t - expireAfterAccess], or write expiry is enabled and the write time
    is older than [t - expireAfterWrite]; when none of the three holds the
    entry is fresh. *)
Theorem isExpired_iff (c : localCache) (e : entry) (t : Time) :
  (isExpired c e t = true <->
     invalidated e = true \/
     (expireAfterAccess c > 0 /\ accessTime e < t - expireAfterAccess c) \/
     (expireAfterWrite c > 0 /\ writeTime e < t - expireAfterWrite c)) /\
  (isExpired c e t = false <->
     invalidated e = false /\
     ~ (expireAfterAccess c > 0 /\ accessTime e < t - expireAfterAccess c) /\
     ~ (expireAfterWrite c > 0 /\ writeTime e < t - expireAfterWrite c)).
Proof.
  assert (Hiff : isExpired c e t = true <->
     invalidated e = true \/
     (expireAfterAccess c > 0 /\ accessTime e < t - expireAfterAccess c) \/
     (expireAfterWrite c > 0 /\ writeTime e < t - expireAfterWrite c)).
  { rewrite isExpired_orb, !orb_true_iff, !andb_true_iff, !Z.gtb_gt, !Z.ltb_lt.
    apply Init.Logic.or_assoc. }
  split; [exact Hiff|].
  rewrite <- not_true_iff_false, Hiff.
  destruct (invalidated e).
  - split; [intros H; destruct H; by left | by intros [? _]].
  - split.
    + intros H. split; [done|]. split; intros ?; apply H; auto.
    + intros (_ & Ha & Hw) [?|[?|?]]; [done | by apply Ha | by apply Hw].
Qed.

(** *** Loading *)

(** C10: [Get] of a key that is absent from the hash table, on a cache
    without a loader, panics with "cache loader function must be set"
    (after the miss has been recorded); no error value is returned. *)
Theorem Get_absent_without_loader_panics (c : localCache) (k : Key) (s : state) :
  table s !! k = None ->
  loader c = None ->
  Get sum currentTime c k s =
    Panicked "cache loader function must be set"
      (set_stats (fun l => l ++ [RecordMisses 1]) s).
Proof.
  intros Hk Hld. unfold Get, bind, cache_get, gets.
  rewrite Hk. simpl. unfold load. by rewrite Hld.
Qed.

(** C3: when the loader fails, [load] records one load error with the
    elapsed time and returns the nil value with that error; no entry is
    allocated, the hash table, the policy and the three channels are as
    before, nothing is submitted and no listener is called. *)
Theorem load_error_leaves_cache (c : localCache) (k : Key) (s : state)
    (ld : LoaderFunc) (v : Value) (err : error) :
  loader c = Some ld ->
  ld (loads s) k = (v, Some err) ->
  exists s',
    load sum currentTime c k s = Ret (None, Some err) s' /\
    stats s' = stats s ++
      [RecordLoadError (Sub (currentTime (S (clock s))) (currentTime (clock s)))] /\
    heap s' = heap s /\ table s' = table s /\ entries s' = entries s /\
    addEntry s' = addEntry s /\ hitEntry s' = hitEntry s /\
    deleteEntry s' = deleteEntry s /\
    tasks s' = tasks s /\ inserted s' = inserted s /\ removed s' = removed s.
Proof.
  intros Hld Herr. unfold load. rewrite Hld.
  unfold bind, now, callLoader. simpl. rewrite Herr. simpl.
  eexists. split; [reflexivity|]. simpl. done.
Qed.

(** *** Put *)

Lemma bind_now {B} (k : Time -> M B) s :
  bind (now currentTime) k s =
    k (currentTime (clock s)) (set_clock (S (clock s)) s).
Proof. done. Qed.

(** An absent key within the capacity: the new entry goes into the table. *)
Lemma Put_absent_within (c : localCache) k v s :
  table s !! k = None ->
  cap c = 0 \/ Z.of_nat (size (table s)) < cap c ->
  Put sum currentTime c k v s =
    sendAdd (length (heap s))
      (set_table (fun t => <[k := length (heap s)]> t)
         (set_heap (fun h => h ++ [putEntry sum currentTime k v s])
            (set_clock (S (clock s)) s))).
Proof.
  intros Hk Hcap. unfold Put.
  rewrite bind_cache_get, Hk, bind_now, !bind_bind.
  rewrite bind_alloc, !bind_bind.
  rewrite (bind_update _ _ (newEntry k v (sum k))) by apply alloc_lookup.
  rewrite alloc_set, bind_bind.
  rewrite (bind_update _ _ (setWriteTime (UnixNano (currentTime (clock s)))
                              (newEntry k v (sum k)))) by apply alloc_lookup.
  rewrite alloc_set, bind_bind, bind_cache_len.
  change (setAccessTime _ _) with (putEntry sum currentTime k v s).
  replace ((cap c =? 0) || (_ <? cap c)) with true; cycle 1.
  { symmetry. apply orb_true_iff. simpl.
    destruct Hcap; [left; by apply Z.eqb_eq | right; by apply Z.ltb_lt]. }
  unfold cache_getOrSet.
  rewrite !bind_bind, (bind_deref _ (putEntry sum currentTime k v s)) by apply alloc_lookup.
  rewrite bind_bind, bind_gets. simpl table. simpl key. rewrite Hk.
  by rewrite !bind_bind, bind_modify, bind_ret, bind_ret.
Qed.


(** A present key: value and write time are stored in the entry. *)
Lemma Put_present (c : localCache) k v s a e :
  table s !! k = Some a ->
  heap s !! a = Some e ->
  Put sum currentTime c k v s =
    sendAdd a
      (set_heap
         (fun h => <[a := setWriteTime (UnixNano (currentTime (clock s)))
                            (setValue v e)]> h)
         (set_clock (S (clock s)) s)).
Proof.
  intros Hk Ha. unfold Put.
  rewrite bind_cache_get, Hk, bind_now, !bind_bind.
  rewrite (bind_update _ _ e) by done.
  rewrite bind_bind, (bind_update _ _ (setValue v e)); cycle 1.
  { simpl. apply list_lookup_insert_eq. by eapply lookup_lt_Some. }
  rewrite bind_ret. f_equal. unfold set_heap. simpl. f_equal.
  by rewrite list_insert_insert_eq.
Qed.

(** *** GetIfPresent *)

Lemma GetIfPresent_absent (c : localCache) k s :
  table s !! k = None ->
  GetIfPresent sum currentTime c k s =
    Ret (None, false) (set_stats (fun l => l ++ [RecordMisses 1]) s).
Proof.
  intros Hk. unfold GetIfPresent. by rewrite bind_cache_get, Hk.
Qed.

Lemma GetIfPresent_expired (c : localCache) k s a e :
  table s !! k = Some a ->
  heap s !! a = Some e ->
  isExpired c e (currentTime (clock s)) = true ->
  GetIfPresent sum currentTime c k s =
    (sendDelete (Some a) >> ret (None, false))
      (set_stats (fun l => l ++ [RecordMisses 1]) (set_clock (S (clock s)) s)).
Proof.
  intros Hk Ha He. unfold GetIfPresent.
  rewrite bind_cache_get, Hk, bind_now, (bind_deref _ e) by done.
  by rewrite He, bind_record.
Qed.

Lemma GetIfPresent_fresh (c : localCache) k s a e :
  table s !! k = Some a ->
  heap s !! a = Some e ->
  isExpired c e (currentTime (clock s)) = false ->
  hasRoom (hitEntry s) = true ->
  GetIfPresent sum currentTime c k s =
    Ret (Some (value e), true)
      (set_hitEntry (fun q => q ++ [a])
         (set_heap (fun h => <[a := setAccessTime (UnixNano (currentTime (clock s))) e]> h)
            (set_stats (fun l => l ++ [RecordHits 1])
               (set_clock (S (clock s)) s)))).
Proof.
  intros Hk Ha He Hroom. unfold GetIfPresent.
  rewrite bind_cache_get, Hk, bind_now, (bind_deref _ e) by done.
  rewrite He, bind_record, (bind_update _ _ e) by done.
  unfold bind at 1, sendHit at 1. simpl hitEntry. rewrite Hroom.
  rewrite (bind_deref _ (setAccessTime (UnixNano (currentTime (clock s))) e)).
  - done.
  - simpl. apply list_lookup_insert_eq. by eapply lookup_lt_Some.
Qed.

(** The two branches of [GetIfPresent] on a present key, with the wait
    on a full channel made explicit. *)
Lemma GetIfPresent_present (c : localCache) k s a e :
  table s !! k = Some a ->
  heap s !! a = Some e ->
  GetIfPresent sum currentTime c k s =
    if isExpired c e (currentTime (clock s)) then
      let s0 := set_stats (fun l => l ++ [RecordMisses 1])
                  (set_clock (S (clock s)) s) in
      if hasRoom (deleteEntry s)
      then Ret (None, false) (set_deleteEntry (fun q => q ++ [Some a]) s0)
      else Blocked s0
    else
      let s0 := set_heap
                  (fun h => <[a := setAccessTime (UnixNano (currentTime (clock s))) e]> h)
                  (set_stats (fun l => l ++ [RecordHits 1])
                     (set_clock (S (clock s)) s)) in
      if hasRoom (hitEntry s)
      then Ret (Some (value e), true) (set_hitEntry (fun q => q ++ [a]) s0)
      else Blocked s0.
Proof.
  intros Hk Ha. destruct (isExpired _ _ _) eqn:He.
  - rewrite (GetIfPresent_expired c k s a e) by done.
    unfold bind, sendDelete. simpl. by destruct (hasRoom _).
  - destruct (hasRoom (hitEntry s)) eqn:Hroom.
    + by rewrite (GetIfPresent_fresh c k s a e).
    + unfold GetIfPresent.
      rewrite bind_cache_get, Hk, bind_now, (bind_deref _ e) by done.
      rewrite He, bind_record, (bind_update _ _ e) by done.
      unfold bind, sendHit. simpl. by rewrite Hroom.
Qed.

Lemma GetIfPresent_dangling (c : localCache) k s a :
  table s !! k = Some a ->
  heap s !! a = None ->
  GetIfPresent sum currentTime c k s = Panicked nilDeref (set_clock (S (clock s)) s).
Proof.
  intros Hk Ha. unfold GetIfPresent.
  rewrite bind_cache_get, Hk, bind_now. unfold bind, deref. simpl.
  by rewrite Ha.
Qed.



(** *** Get *)

(** C5: [Get] of a key whose entry is present and expired records a miss
    and returns the value the entry holds, with a nil error.  Without a
    loader it puts the entry on the delete channel (waiting if the channel
    is full).  With a loader it stores the time of the call as the access
    time and calls [refreshAsync]: the [loading] flag is set afterwards,
    and one refresh is submitted unless one was already in flight. *)
Theorem Get_expired (c : localCache) k s a e :
  table s !! k = Some a ->
  heap s !! a = Some e ->
  isExpired c e (currentTime (clock s)) = true ->
  match loader c with
  | None =>
      let s0 := set_stats (fun l => l ++ [RecordMisses 1])
                  (set_clock (S (clock s)) s) in
      Get sum currentTime c k s =
        if hasRoom (deleteEntry s)
        then Ret (Some (value e), None)
               (set_deleteEntry (fun q => q ++ [Some a]) s0)
        else Blocked s0
  | Some _ =>
      exists s' e',
        Get sum currentTime c k s = Ret (Some (value e), None) s' /\
        stats s' = stats s ++ [RecordMisses 1] /\
        heap s' !! a = Some e' /\
        accessTime e' = UnixNano (currentTime (clock s)) /\
        loading e' = true /\
        value e' = value e /\
        tasks s' = tasks s ++
          (if loading e then []
           else [if exec c then ExecRefresh a else GoRefresh a]) /\
        deleteEntry s' = deleteEntry s /\ table s' = table s
  end.
Proof.
  intros Hk Ha He.
  assert (Hlen : (a < length (heap s))%nat) by (by eapply lookup_lt_Some).
  unfold Get. rewrite bind_cache_get, Hk, bind_now, (bind_deref _ e) by done.
  rewrite He, !bind_bind, bind_record.
  destruct (loader c) as [ld|] eqn:Hld.
  - rewrite bind_bind, (bind_update _ _ e) by done.
    unfold refreshAsync. rewrite Hld, bind_bind.
    set (e1 := setAccessTime (UnixNano (currentTime (clock s))) e).
    rewrite (bind_casLoading _ _ e1) by heap_lookup.
    unfold setLoading. change (loading e1) with (loading e).
    destruct (loading e) eqn:Hl; simpl Bool.eqb; cbv iota; simpl fst; simpl snd;
      cbv iota.
    + rewrite bind_ret, (bind_deref _ e1) by heap_lookup.
      eexists _, e1. split; [reflexivity|]. simpl.
      split; [done|]. split; [heap_lookup|]. by rewrite app_nil_r.
    + unfold submitRefresh. rewrite bind_modify.
      erewrite bind_deref by heap_lookup.
      eexists _, _. split; [reflexivity|]. simpl.
      split; [done|]. split; [heap_lookup|]. done.
  - cbv zeta. unfold bind, sendDelete. simpl.
    destruct (hasRoom _); [|done]. unfold deref. simpl. by rewrite Ha.
Qed.

(** A fresh entry is served without any refresh being submitted. *)
Lemma Get_fresh (c : localCache) k s a e :
  table s !! k = Some a ->
  heap s !! a = Some e ->
  isExpired c e (currentTime (clock s)) = false ->
  tasks (final (Get sum currentTime c k s)) = tasks s.
Proof.
  intros Hk Ha He. unfold Get.
  rewrite bind_cache_get, Hk, bind_now, (bind_deref _ e) by done.
  rewrite He, !bind_bind, bind_record, bind_bind, (bind_update _ _ e) by done.
  unfold bind, sendHit. simpl. destruct (hasRoom _); [|done].
  unfold deref. simpl.
  by rewrite list_lookup_insert_eq by (by eapply lookup_lt_Some).
Qed.

(** [load] submits no refresh. *)
Lemma load_tasks (c : localCache) k s :
  tasks (final (load sum currentTime c k s)) = tasks s.
Proof.
  unfold load. destruct (loader c) as [ld|]; [|done].
  rewrite bind_now. unfold bind at 1, callLoader at 1.
  rewrite bind_now. cbv zeta.
  destruct (snd _); [done|].
  rewrite bind_record, bind_alloc.
  erewrite bind_update by apply alloc_lookup.
  rewrite alloc_set.
  erewrite bind_update by apply alloc_lookup.
  rewrite alloc_set. unfold bind, sendAdd. simpl. by destruct (hasRoom _).
Qed.

(** *** The refresh-after-write setting *)

(** C7: no operation consults [needRefresh], hence none depends on
    [refreshAfterWrite]: with any value [d] of the setting, [Get],
    [GetIfPresent], [Put], [Invalidate], [InvalidateAll], [Refresh], the
    refresh task and the maintenance goroutine are the same functions as
    with the setting disabled.  A refresh is submitted by [Get] only for
    an entry that [isExpired] reports expired. *)
Theorem refreshAfterWrite_is_not_consulted (c : localCache) (d : Duration) :
  let c' := WithRefreshAfterWrite d c in
  let c0 := WithRefreshAfterWrite 0 c in
  (forall k, Get sum currentTime c' k = Get sum currentTime c0 k) /\
  (forall k, GetIfPresent sum currentTime c' k = GetIfPresent sum currentTime c0 k) /\
  (forall k v, Put sum currentTime c' k v = Put sum currentTime c0 k v) /\
  (forall k, Invalidate sum c' k = Invalidate sum c0 k) /\
  InvalidateAll c' = InvalidateAll c0 /\
  (forall k, Refresh sum currentTime c' k = Refresh sum currentTime c0 k) /\
  (forall a, refreshAsync c' a = refreshAsync c0 a) /\
  (forall a, refresh currentTime c' a = refresh currentTime c0 a) /\
  (forall padd phit ch,
      processEntries currentTime padd phit c' ch
      = processEntries currentTime padd phit c0 ch) /\
  (forall k s,
      tasks (final (Get sum currentTime c' k s)) <> tasks s ->
      exists a e, table s !! k = Some a /\ heap s !! a = Some e /\
                  isExpired c' e (currentTime (clock s)) = true).
Proof.
  repeat split; try reflexivity.
  intros k s Hsub.
  destruct (table s !! k) as [a|] eqn:Hk.
  - destruct (heap s !! a) as [e|] eqn:Ha.
    + exists a, e. repeat split; [done..|].
      destruct (isExpired _ e _) eqn:He; [done|].
      destruct Hsub. by eapply Get_fresh.
    + destruct Hsub. unfold Get.
      rewrite bind_cache_get, Hk, bind_now. unfold bind, deref. simpl.
      by rewrite Ha.
  - destruct Hsub. unfold Get.
    rewrite bind_cache_get, Hk, bind_record.
    by rewrite load_tasks.
Qed.

(** *** Expiry sweep *)

Lemma sweepFrame_refl s : sweepFrame s s.
Proof. by repeat split. Qed.

Lemma filter_ne_notin (a : nat) (l : list nat) :
  a ∉ l -> filter (fun b => b ≠ a) l = l.
Proof.
  induction l as [|b l IH]; [done|]. intros Hnotin.
  apply not_elem_of_cons in Hnotin as [Hne Hnotin].
  rewrite filter_cons_True by done. by rewrite IH.
Qed.

(** Removing the entry the walk is visiting: it leaves the order and the
    hash table, and the removal listener, if set, is called with it. *)
Lemma remove_visited (c : localCache) a l e s :
  entries s = a :: l ->
  a ∉ l ->
  heap s !! a = Some e ->
  exists s',
    remove c a s = Ret tt s' /\
    entries s' = l /\
    table s' = dropKey (heap s) (table s) a /\
    removed s' = removed s ++ (if onRemoval c then [(key e, value e)] else []) /\
    stats s' = stats s /\ clock s' = clock s /\
    sweepFrame s s'.
Proof.
  intros Hl Hnotin Ha. unfold remove, policy_remove.
  rewrite !bind_bind, bind_gets.
  rewrite decide_True by (rewrite Hl; left).
  rewrite !bind_bind, bind_modify. unfold cache_delete.
  rewrite !bind_bind, (bind_deref _ e) by done.
  rewrite bind_bind, bind_gets. simpl table.
  assert (Hfilter : filter (fun b => b ≠ a) (entries s) = l).
  { rewrite Hl, filter_cons_False by (intros Hne; by apply Hne).
    by apply filter_ne_notin. }
  unfold dropKey. rewrite Ha.
  destruct (decide (table s !! key e = Some a)) as [Hin|Hout].
  - rewrite bind_modify, bind_ret. unfold callOnRemoval.
    destruct (onRemoval c).
    + rewrite (bind_deref _ e) by done. eexists. split; [reflexivity|].
      simpl. by rewrite Hfilter.
    + eexists. split; [reflexivity|]. simpl.
      by rewrite Hfilter, app_nil_r.
  - rewrite bind_ret, bind_ret. unfold callOnRemoval.
    destruct (onRemoval c).
    + rewrite (bind_deref _ e) by done. eexists. split; [reflexivity|].
      simpl. by rewrite Hfilter.
    + eexists. split; [reflexivity|]. simpl.
      by rewrite Hfilter, app_nil_r.
Qed.

(** The walk of [expireEntries] over the access order [l], with [remain]
    removals left. *)
Lemma walk_expire (c : localCache) (expire : Z) (l : list addr) :
  forall (remain : Z) (s : state),
    entries s = l ->
    NoDup l ->
    (forall a, a ∈ l -> exists e, heap s !! a = Some e) ->
    0 < remain ->
    exists r s',
      walkFrom (expireVisit c expire) l remain s = Ret r s' /\
      entries s' = drop (length (expiredPrefix (heap s) expire remain l)) l /\
      table s' = foldl (dropKey (heap s)) (table s)
                   (expiredPrefix (heap s) expire remain l) /\
      stats s' = stats s ++
        replicate (length (expiredPrefix (heap s) expire remain l)) RecordEviction /\
      removed s' = removed s ++
        (if onRemoval c
         then expiredPrefix (heap s) expire remain l ≫= removalOf (heap s)
         else []) /\
      clock s' = clock s /\
      sweepFrame s s'.
Proof.
  induction l as [|a l IH]; intros remain s Hl Hnd Hheap Hpos.
  - exists remain, s. unfold expiredPrefix. simpl.
    rewrite take_nil. simpl. rewrite app_nil_r.
    destruct (onRemoval c); rewrite app_nil_r; auto 10 using sweepFrame_refl.
  - destruct (Hheap a) as [e Ha]; [left|].
    apply NoDup_cons in Hnd as [Hnotin Hnd].
    assert (Hacc : accessOf (heap s) a = accessTime e)
      by (unfold accessOf; by rewrite Ha).
    unfold expiredPrefix. simpl walkFrom. simpl takeWhile. rewrite Hacc.
    unfold expireVisit at 1. rewrite !bind_bind, (bind_deref _ e) by done.
    rewrite Z.geb_leb.
    destruct (Z.leb_spec expire (accessTime e)) as [Hfresh|Hold].
    + rewrite (proj2 (Z.ltb_ge _ _)) by done.
      rewrite bind_ret. simpl. rewrite take_nil. simpl.
      exists remain, s. rewrite app_nil_r.
      destruct (onRemoval c); rewrite app_nil_r; auto 10 using sweepFrame_refl.
    + rewrite (proj2 (Z.ltb_lt _ _)) by done.
      destruct (remove_visited c a l e s Hl Hnotin Ha)
        as (s1 & Hrm & Hent1 & Htab1 & Hrem1 & Hstat1 & Hclk1 & Hfr1).
      rewrite !bind_bind. unfold bind at 1. rewrite Hrm.
      rewrite bind_bind, bind_record, bind_ret. simpl fst. simpl snd.
      replace (Z.to_nat remain) with (S (Z.to_nat (remain - 1))) by lia.
      simpl take. simpl length. simpl drop. simpl foldl.
      rewrite Z.gtb_ltb.
      destruct (Z.ltb_spec 0 (remain - 1)) as [Hmore|Hlast].
      * destruct (IH (remain - 1)
                    (set_stats (fun l0 => l0 ++ [RecordEviction]) s1))
          as (r & s' & Hwalk & Hent & Htab & Hstat & Hrem & Hclk & Hfr);
          [done | done | | done |].
        { intros b Hb. simpl. destruct Hfr1 as [-> _]. apply Hheap. by right. }
        destruct Hfr1 as (Hh1 & ? & ? & ? & ? & ? & ? & ?).
        simpl in Hent, Htab, Hstat, Hrem, Hclk, Hfr. rewrite Hh1 in *.
        fold (expiredPrefix (heap s) expire (remain - 1) l) in *.
        exists r, s'. split; [done|]. split; [done|].
        split; [by rewrite Htab, Htab1|].
        split; [by rewrite Hstat, Hstat1, <- app_assoc|].
        split.
        { rewrite Hrem, Hrem1, <- app_assoc. f_equal.
          destruct (onRemoval c); [|done]. simpl.
          unfold removalOf at 2. by rewrite Ha. }
        split; [congruence|].
        destruct Hfr as (? & ? & ? & ? & ? & ? & ? & ?).
        unfold sweepFrame. simpl in *. repeat split; congruence.
      * assert (remain = 1) as -> by lia. simpl.
        eexists _, _. split; [reflexivity|]. simpl.
        rewrite drop_0.
        split; [done|]. split; [done|].
        split; [by rewrite Hstat1|].
        split.
        { rewrite Hrem1. f_equal. destruct (onRemoval c); [|done]. simpl.
          unfold removalOf. by rewrite Ha. }
        split; [done|]. done.
Qed.

Lemma takeWhile_Forall {A} (p : A -> bool) (l : list A) :
  Forall (fun x => p x = true) (takeWhile p l).
Proof.
  induction l as [|x l IH]; simpl; [constructor|].
  destruct (p x) eqn:Hp; by constructor.
Qed.

Lemma takeWhile_stop {A} (p : A -> bool) (l : list A) (x : A) :
  head (drop (length (takeWhile p l)) l) = Some x -> p x = false.
Proof.
  induction l as [|y l IH]; simpl; [done|].
  destruct (p y) eqn:Hp; simpl; [done|]. by intros [= ->].
Qed.

(** C6: [expireEntries] does nothing when access expiry is disabled.
    Otherwise it reads the clock and walks the policy's access order from
    the oldest entry: it removes the leading entries whose access time is
    below [now - expireAfterAccess], at most 16 of them, stopping at the
    first entry at or above the cutoff; each removal takes the entry out
    of the policy and the hash table, records one eviction and calls the
    removal listener, if one is set, with the entry's key and value. *)
Theorem expireEntries_sweeps (c : localCache) (s : state) :
  policyOK s ->
  (expireAfterAccess c <= 0 -> expireEntries currentTime c s = Ret tt s) /\
  (expireAfterAccess c > 0 ->
     let vs := victims c (currentTime (clock s)) s in
     exists s',
       expireEntries currentTime c s = Ret tt s' /\
       (length vs <= 16)%nat /\
       Forall (fun a => accessOf (heap s) a
                        < currentTime (clock s) - expireAfterAccess c) vs /\
       ((length vs < 16)%nat ->
        forall a, head (entries s') = Some a ->
                  currentTime (clock s) - expireAfterAccess c
                  <= accessOf (heap s) a) /\
       entries s' = drop (length vs) (entries s) /\
       table s' = foldl (dropKey (heap s)) (table s) vs /\
       stats s' = stats s ++ replicate (length vs) RecordEviction /\
       removed s' = removed s ++
         (if onRemoval c then vs ≫= removalOf (heap s) else []) /\
       clock s' = S (clock s) /\
       sweepFrame s s').
Proof.
  intros [Hnd Hheap]. unfold expireEntries. split; intros Hd.
  - by rewrite (proj2 (Z.leb_le _ _)).
  - rewrite (proj2 (Z.leb_gt _ _)) by lia.
    rewrite bind_now. unfold policy_walkAccess.
    rewrite bind_bind, bind_gets. simpl entries.
    unfold UnixNano, Add. rewrite Z.add_opp_r.
    destruct (walk_expire c (currentTime (clock s) - expireAfterAccess c)
                (entries s) drainMax (set_clock (S (clock s)) s))
      as (r & s' & Hwalk & Hent & Htab & Hstat & Hrem & Hclk & Hfr);
      [done | done | done | done |].
    exists s'. split; [unfold bind; by rewrite Hwalk|].
    unfold victims, expiredPrefix in *. simpl heap in *.
    change (Z.to_nat drainMax) with 16%nat in *.
    set (p := fun a => accessOf (heap s) a
                       <? currentTime (clock s) - expireAfterAccess c) in *.
    split; [rewrite length_take; lia|].
    split.
    { apply Forall_take.
      eapply Forall_impl; [apply (takeWhile_Forall p)|].
      intros a Hp. by apply Z.ltb_lt. }
    split; [|done].
    intros Hfew a Hhead. rewrite Hent in Hhead.
    rewrite length_take in Hfew, Hhead.
    rewrite Nat.min_r in Hhead by lia.
    apply (takeWhile_stop p) in Hhead. by apply Z.ltb_ge.
Qed.

(** *** Capacity *)

(** C9: [WithMaximumSize] turns every negative size into 0, the unlimited
    capacity, and every size above 2^30 into 2^30; on an unlimited cache
    [Put] of an absent key makes the hash table map the key to the new
    entry, which holds the value and the time of the call. *)
Theorem WithMaximumSize_normalizes (n m : Z) (c c' : localCache) k v s :
  n < 0 ->
  m > 2 ^ 30 ->
  cap c' = 0 ->
  table s !! k = None ->
  cap (WithMaximumSize n c) = 0 /\
  cap (WithMaximumSize m c) = 2 ^ 30 /\
  table (final (Put sum currentTime c' k v s)) !! k = Some (length (heap s)) /\
  heap (final (Put sum currentTime c' k v s)) !! length (heap s)
    = Some (putEntry sum currentTime k v s).
Proof.
  intros Hn Hm Hcap Hk. repeat split.
  - unfold WithMaximumSize. simpl.
    rewrite (proj2 (Z.ltb_lt n 0)) by done. done.
  - unfold WithMaximumSize. simpl.
    rewrite (proj2 (Z.ltb_ge m 0)) by lia.
    change maximumCapacity with (2 ^ 30).
    by rewrite (proj2 (Z.gtb_gt m (2 ^ 30))).
  - rewrite (Put_absent_within c' k v s) by auto.
    unfold sendAdd. destruct (hasRoom _); simpl; apply lookup_insert_eq.
  - rewrite (Put_absent_within c' k v s) by auto.
    unfold sendAdd. destruct (hasRoom _); simpl;
      by rewrite lookup_app_r, Nat.sub_diag by lia.
Qed.

End Properties.

(** ** The refresh flag *)

Section RefreshFlag.
Import RefreshProtocol.

Variable currentTime : nat -> Time.
Variable c : localCache.
Variable a : addr.

Lemma total_app (f : pc -> nat) ps q : total f (ps ++ [q]) = (total f ps + f q)%nat.
Proof.
  unfold total. rewrite sum_list_with_app. simpl. lia.
Qed.

Lemma total_insert (f : pc -> nat) ps i p q :
  ps !! i = Some p ->
  (total f (<[i := q]> ps) + f p = total f ps + f q)%nat.
Proof.
  unfold total. revert i. induction ps as [|r ps IH]; intros [|i] Hi;
    simplify_eq/=; [lia|].
  specialize (IH i Hi). lia.
Qed.

(** [setLoading b] leaves the flag at [b] and answers whether it moved. *)
Lemma casLoading_flag b s won s' :
  casLoading a b s = Ret won s' ->
  exists old, flagOf a s = Some old /\
              flagOf a s' = Some b /\
              won = negb (Bool.eqb old b) /\
              submitted a s' = submitted a s.
Proof.
  unfold casLoading, flagOf, bind, deref, setLoading.
  destruct (heap s !! a) as [e|] eqn:Ha; [|done].
  simpl. intros [= <- <-]. exists (loading e). simpl.
  rewrite list_lookup_insert_eq by (by eapply lookup_lt_Some).
  destruct (loading e) eqn:Hl, b; simpl; by rewrite ?Hl.
Qed.

Lemma submitRefresh_flag s s' :
  submitRefresh c a s = Ret tt s' ->
  flagOf a s' = flagOf a s /\ submitted a s' = S (submitted a s).
Proof.
  unfold submitRefresh, modify. intros [= <-]. split; [done|].
  unfold submitted. simpl. rewrite filter_app, length_app.
  assert (Hself : forall t, t = ExecRefresh a \/ t = GoRefresh a ->
            length (filter (fun t => isFor a t = true) [t]) = 1%nat).
  { intros t [-> | ->]; rewrite filter_cons_True; simpl;
      by rewrite ?Nat.eqb_refl. }
  rewrite Hself by (destruct (exec c); auto). lia.
Qed.

(** The body of [refresh] writes the value and the write time of the
    entry, never its [loading] flag, and submits nothing. *)
Lemma refreshBody_flag ld s s' :
  refreshBody currentTime ld a s = Ret tt s' ->
  flagOf a s' = flagOf a s /\ submitted a s' = submitted a s.
Proof.
  unfold refreshBody. rewrite bind_now.
  destruct (heap s !! a) as [e|] eqn:Ha; cycle 1.
  { unfold bind, deref. simpl. by rewrite Ha. }
  rewrite (bind_deref _ e) by done.
  unfold bind at 1, callLoader at 1. rewrite bind_now. cbv zeta.
  destruct (snd _).
  - intros [= <-]. unfold flagOf. by simpl.
  - rewrite bind_record.
    rewrite (bind_update _ _ e) by done.
    erewrite bind_update by heap_lookup.
    unfold sendAdd. simpl. destruct (hasRoom _); [|done].
    intros [= <-]. unfold flagOf. simpl. split; [|done].
    rewrite list_lookup_insert_eq
      by (rewrite length_insert; by eapply lookup_lt_Some).
    by rewrite Ha.
Qed.

Lemma inFlight_le_owns ps : (total inFlight ps <= total owns ps)%nat.
Proof.
  unfold total. induction ps as [|p ps IH]; simpl; [done|].
  destruct p; simpl; lia.
Qed.

Lemma initial_balanced x :
  initial a x -> balanced a (submitted a (store x)) x.
Proof.
  intros (Hflag & Hps & Hn). exists false. split; [done|].
  assert (Hzero : forall f, f AtCas = 0%nat -> total f (procs x) = 0%nat).
  { intros f Hf. unfold total.
    induction Hps as [|p ps -> _ IH]; simpl; [done|]. by rewrite Hf, IH. }
  rewrite !Hzero, Hn by done. simpl. split; lia.
Qed.

Lemma step_balanced n0 x y :
  step currentTime c a x y -> balanced a n0 x -> balanced a n0 y.
Proof.
  intros Hstep (b & Hflag & Howns & Hsub). simpl in *.
  destruct Hstep as [s ps n | s s' ps n i won Hi Hcas | s s' ps n i Hi Hsubmit
                    | s s' ps n i ld Hi Hld Hbody | s s' ps n i b' Hi Hcas
                    | s s' ps n Hf Hs]; simpl in *.
  - exists b; simpl. rewrite !total_app. simpl. split; [done|]. split; lia.
  - apply casLoading_flag in Hcas as (old & Hold & Hnew & -> & Hsame).
    assert (old = b) as -> by congruence.
    exists true; simpl. split; [done|].
    pose proof (total_insert owns ps i AtCas
                  (if negb (Bool.eqb b true) then AtSubmit else Finished) Hi).
    pose proof (total_insert inFlight ps i AtCas
                  (if negb (Bool.eqb b true) then AtSubmit else Finished) Hi).
    destruct b; simpl in *; split; lia.
  - apply submitRefresh_flag in Hsubmit as [Hf Hs].
    exists b; simpl. split; [congruence|]. rewrite !total_app.
    pose proof (total_insert owns ps i AtSubmit Finished Hi).
    pose proof (total_insert inFlight ps i AtSubmit Finished Hi).
    simpl in *. split; lia.
  - apply refreshBody_flag in Hbody as [Hf Hs].
    exists b; simpl. split; [congruence|].
    pose proof (total_insert owns ps i InRefresh AtDefer Hi).
    pose proof (total_insert inFlight ps i InRefresh AtDefer Hi).
    simpl in *. split; lia.
  - apply casLoading_flag in Hcas as (old & Hold & Hnew & -> & Hsame).
    assert (old = b) as -> by congruence.
    exists false; simpl. split; [done|].
    pose proof (total_insert owns ps i AtDefer Finished Hi).
    pose proof (total_insert inFlight ps i AtDefer Finished Hi).
    destruct b; simpl in *; split; lia.
  - exists b; simpl. split; [congruence|]. split; [done|]. lia.
Qed.

Lemma reachable_balanced n0 x y :
  reachable currentTime c a x y -> balanced a n0 x -> balanced a n0 y.
Proof.
  induction 1 as [|x y z Hstep _ IH]; [done|].
  intros Hx. apply IH. by eapply step_balanced.
Qed.

(** [refreshAsync] is the flag transition followed, if it was won, by the
    submission; [refresh] is its body followed by the deferred clearing of
    the flag.  These are the steps of the protocol. *)
Lemma refreshAsync_steps ld s :
  loader c = Some ld ->
  refreshAsync c a s =
    match casLoading a true s with
    | Ret true s' => submitRefresh c a s'
    | Ret false s' => Ret tt s'
    | Blocked s' => Blocked s'
    | Panicked msg s' => Panicked msg s'
    end.
Proof.
  intros Hld. unfold refreshAsync, bind. rewrite Hld.
  by destruct (casLoading a true s) as [[] ?| |].
Qed.

Lemma refresh_steps ld s :
  loader c = Some ld ->
  refresh currentTime c a s =
    match refreshBody currentTime ld a s with
    | Ret _ s' =>
        match casLoading a false s' with
        | Ret _ s'' => Ret tt s''
        | Blocked s'' => Blocked s''
        | Panicked msg s'' => Panicked msg s''
        end
    | Blocked s' => Blocked s'
    | Panicked msg s' => Panicked msg s'
    end.
Proof.
  intros Hld. unfold refresh, bind. rewrite Hld.
  destruct (refreshBody currentTime ld a s); [|done..].
  by destruct (casLoading a false s0).
Qed.

(** At the grain of the flag accesses.  With a loader set, [refreshAsync]
    is the step [AtCas] (its [setLoading(true)]) followed, if that made the
    transition, by the step [AtSubmit], and [refresh] is the step
    [InRefresh] (its body) followed by the step [AtDefer] (the deferred
    [setLoading(false)]).  However the goroutines interleave between these
    steps, the refreshes submitted exceed the refreshes completed by at most
    one. *)
Lemma interleaved_refreshes_at_most_one (ld : LoaderFunc) (x0 x : conf) :
  loader c = Some ld ->
  initial a x0 ->
  reachable currentTime c a x0 x ->
  (forall s,
      refreshAsync c a s =
        match casLoading a true s with
        | Ret true s' => submitRefresh c a s'
        | Ret false s' => Ret tt s'
        | Blocked s' => Blocked s'
        | Panicked msg s' => Panicked msg s'
        end) /\
  (forall s,
      refresh currentTime c a s =
        match refreshBody currentTime ld a s with
        | Ret _ s' =>
            match casLoading a false s' with
            | Ret _ s'' => Ret tt s''
            | Blocked s'' => Blocked s''
            | Panicked msg s'' => Panicked msg s''
            end
        | Blocked s' => Blocked s'
        | Panicked msg s' => Panicked msg s'
        end) /\
  (submitted a (store x) <= submitted a (store x0) + completed x + 1)%nat /\
  (total inFlight (procs x) <= 1)%nat.
Proof.
  intros Hld Hinit Hreach.
  split; [intros s; by apply (refreshAsync_steps ld)|].
  split; [intros s; by apply refresh_steps|].
  destruct (reachable_balanced _ _ _ Hreach (initial_balanced _ Hinit))
    as (b & _ & Howns & Hsub).
  pose proof (inFlight_le_owns (procs x)).
  destruct b; simpl in Howns; lia.
Qed.

(** A call of [refreshAsync] that returns leaves the flag set, and has
    submitted one refresh if the flag was clear and none if it was set. *)
Lemma refreshAsync_flag s s' :
  refreshAsync c a s = Ret tt s' ->
  exists b, flagOf a s = Some b /\
            flagOf a s' = Some true /\
            submitted a s' = (submitted a s + if b then 0 else 1)%nat.
Proof.
  intros Hrun.
  destruct (loader c) as [ld|] eqn:Hld; cycle 1.
  { unfold refreshAsync in Hrun. by rewrite Hld in Hrun. }
  rewrite (refreshAsync_steps ld) in Hrun by done.
  destruct (casLoading a true s) as [won s1| |] eqn:Hcas; [|done..].
  apply casLoading_flag in Hcas as (old & Hold & Hnew & -> & Hsame).
  exists old. split; [done|]. destruct old; simpl in Hrun.
  - simplify_eq. split; [done|]. lia.
  - apply submitRefresh_flag in Hrun as [Hf Hs].
    split; [congruence|]. lia.
Qed.

(** A run of [refresh] that returns has cleared the flag and submitted
    nothing. *)
Lemma refresh_flag s s' :
  refresh currentTime c a s = Ret tt s' ->
  flagOf a s' = Some false /\ submitted a s' = submitted a s.
Proof.
  intros Hrun.
  destruct (loader c) as [ld|] eqn:Hld; cycle 1.
  { unfold refresh in Hrun. rewrite Hld in Hrun.
    unfold bind, now, panic in Hrun. simpl in Hrun.
    destruct (deref a _); [|done..]. by destruct (casLoading a false _). }
  rewrite (refresh_steps ld) in Hrun by done.
  destruct (refreshBody currentTime ld a s) as [[] s1| |] eqn:Hbody; [|done..].
  apply refreshBody_flag in Hbody as [Hf Hs].
  destruct (casLoading a false s1) as [b s2| |] eqn:Hcas; [|done..].
  apply casLoading_flag in Hcas as (old & Hold & Hnew & _ & Hsame).
  simplify_eq. split; [done | congruence].
Qed.

Lemma initialCalls_settled y :
  initialCalls a y -> settled a (submitted a (cstore y)) y.
Proof.
  intros (Hflag & Hp & Hn). unfold settled. rewrite Hp, Hn.
  split; [done|]. split; lia.
Qed.

Lemma callStep_settled n0 y y' :
  callStep currentTime c a y y' -> settled a n0 y -> settled a n0 y'.
Proof.
  intros Hstep (Hflag & Hle & Hsub).
  destruct Hstep as [s s' p n Hcall | s s' p n Hrun | s s' p n Hf Hs];
    unfold settled; simpl in *.
  - apply refreshAsync_flag in Hcall as (b & Hb & Hnew & Hcount).
    assert (b = bool_decide (p = 1%nat)) as -> by congruence.
    rewrite Hnew, Hcount. destruct p as [|[|p]]; simpl in *; try lia.
    + replace (submitted a s + 1 - submitted a s)%nat with 1%nat by lia.
      split; [done|]. split; lia.
    + replace (submitted a s + 0 - submitted a s)%nat with 0%nat by lia.
      split; [done|]. split; lia.
  - apply refresh_flag in Hrun as [Hnew Hsame].
    assert (p = 0%nat) as -> by lia.
    rewrite Hnew, Hsame. split; [done|]. split; lia.
  - rewrite Hf, Hs. done.
Qed.

Lemma callSteps_settled n0 y y' :
  rtc (callStep currentTime c a) y y' -> settled a n0 y -> settled a n0 y'.
Proof.
  induction 1 as [|y1 y2 y3 Hstep _ IH]; [done|].
  intros Hy. apply IH. by eapply callStep_settled.
Qed.

(** C8: however the calls of [refreshAsync] on one entry, the runs of the
    submitted [refresh] closures and the steps of other goroutines follow
    one another, at most one submitted refresh is pending at any time, the
    refreshes submitted are the completed ones plus the pending one, and
    the [loading] flag is set exactly while one is pending.  This is so
    because a call of [refreshAsync] submits only when its
    [setLoading(true)] made the transition from false to true, and a
    [refresh] that returns has cleared the flag. *)
Theorem at_most_one_refresh_in_flight (y0 y : calls) :
  initialCalls a y0 ->
  rtc (callStep currentTime c a) y0 y ->
  (pendingRefreshes y <= 1)%nat /\
  submitted a (cstore y) =
    (submitted a (cstore y0) + finished y + pendingRefreshes y)%nat /\
  flagOf a (cstore y) = Some (bool_decide (pendingRefreshes y = 1%nat)) /\
  (forall s s',
      refreshAsync c a s = Ret tt s' ->
      exists b, flagOf a s = Some b /\
                flagOf a s' = Some true /\
                submitted a s' = (submitted a s + if b then 0 else 1)%nat) /\
  (forall s s',
      refresh currentTime c a s = Ret tt s' ->
      flagOf a s' = Some false /\ submitted a s' = submitted a s).
Proof.
  intros Hinit Hreach.
  destruct (callSteps_settled _ _ _ Hreach (initialCalls_settled _ Hinit))
    as (Hflag & Hle & Hsub).
  split; [done|]. split; [done|]. split; [done|].
  split; [apply refreshAsync_flag | apply refresh_flag].
Qed.

End RefreshFlag.

(** ** What a call leaves alone

    Frame properties are proved once per primitive and carried through the
    code of a function by [keeps_bind]. *)

Section Keeps.

Context (R : state -> state -> Prop) `{!Reflexive R, !Transitive R}.

Lemma keeps_ret {A} (x : A) : keeps R (ret x).
Proof using Type*. intros s. simpl. reflexivity. Qed.

Lemma keeps_panic {A} msg : keeps R (@panic A msg).
Proof using Type*. intros s. simpl. reflexivity. Qed.

Lemma keeps_gets {A} (f : state -> A) : keeps R (gets f).
Proof using Type*. intros s. simpl. reflexivity. Qed.

Lemma keeps_bind {A B} (m : M A) (k : A -> M B) :
  keeps R m -> (forall x, keeps R (k x)) -> keeps R (bind m k).
Proof using Type*.
  intros Hm Hk s. specialize (Hm s). unfold bind.
  destruct (m s) as [x s'| |]; simpl in *; [|done..].
  etransitivity; [exact Hm | apply Hk].
Qed.

Lemma keeps_modify (f : state -> state) :
  (forall s, R s (f s)) -> keeps R (modify f).
Proof. intros Hf s. apply Hf. Qed.

Lemma keeps_deref a : keeps R (deref a).
Proof using Type*. intros s. unfold deref. destruct (_ !! _); simpl; reflexivity. Qed.

Lemma keeps_cache_get k h : keeps R (cache_get k h).
Proof using Type*. apply keeps_gets. Qed.

Lemma keeps_cache_len : keeps R cache_len.
Proof using Type*. apply keeps_gets. Qed.

Lemma keeps_update a f :
  (forall s x, R s (set_heap (fun h => <[a := x]> h) s)) -> keeps R (update a f).
Proof using Type*.
  intros Hf. apply keeps_bind; [apply keeps_deref|].
  intros e. apply keeps_modify. intros s. apply Hf.
Qed.

Lemma keeps_casLoading a b :
  (forall s x, R s (set_heap (fun h => <[a := x]> h) s)) ->
  keeps R (casLoading a b).
Proof using Type*.
  intros Hf. apply keeps_bind; [apply keeps_deref|].
  intros e. apply keeps_bind; [|intros; apply keeps_ret].
  apply keeps_modify. intros s. apply Hf.
Qed.

Lemma keeps_update_at a f :
  (forall s e, heap s !! a = Some e ->
     R s (set_heap (fun h => <[a := f e]> h) s)) ->
  keeps R (update a f).
Proof using Type*.
  intros Hf s. unfold update, bind, deref.
  destruct (heap s !! a) as [e|] eqn:Ha; simpl; [by apply Hf | reflexivity].
Qed.

Lemma keeps_casLoading_at a b :
  (forall s e, heap s !! a = Some e ->
     R s (set_heap (fun h => <[a := fst (setLoading b e)]> h) s)) ->
  keeps R (casLoading a b).
Proof using Type*.
  intros Hf s. unfold casLoading, bind, deref.
  destruct (heap s !! a) as [e|] eqn:Ha; simpl; [by apply Hf | reflexivity].
Qed.

Lemma keeps_alloc e :
  (forall s x, R s (set_heap (fun h => h ++ [x]) s)) -> keeps R (alloc e).
Proof. intros Hf s. apply Hf. Qed.

Lemma keeps_record ev :
  (forall s f, R s (set_stats f s)) -> keeps R (record ev).
Proof. intros Hf. apply keeps_modify. intros s. apply Hf. Qed.

Lemma keeps_sendAdd a :
  (forall s f, R s (set_addEntry f s)) -> keeps R (sendAdd a).
Proof using Type*.
  intros Hf s. unfold sendAdd. destruct (hasRoom _); simpl; [apply Hf | reflexivity].
Qed.

Lemma keeps_sendHit a :
  (forall s f, R s (set_hitEntry f s)) -> keeps R (sendHit a).
Proof using Type*.
  intros Hf s. unfold sendHit. destruct (hasRoom _); simpl; [apply Hf | reflexivity].
Qed.

Lemma keeps_sendDelete m :
  (forall s f, R s (set_deleteEntry f s)) -> keeps R (sendDelete m).
Proof using Type*.
  intros Hf s. unfold sendDelete. destruct (hasRoom _); simpl; [apply Hf | reflexivity].
Qed.

Lemma keeps_now currentTime :
  (forall s n, R s (set_clock n s)) -> keeps R (now currentTime).
Proof. intros Hf s. apply Hf. Qed.

Lemma keeps_callLoader ld k :
  (forall s n, R s (set_loads n s)) -> keeps R (callLoader ld k).
Proof. intros Hf s. apply Hf. Qed.

Lemma keeps_forEach (f : addr -> M unit) l :
  (forall a, keeps R (f a)) -> keeps R (forEach f l).
Proof using Type*.
  intros Hf. induction l as [|a l IH]; simpl; [apply keeps_ret|].
  apply keeps_bind; [apply Hf | by intros _].
Qed.

Lemma keeps_walkFrom {A} (f : addr -> A -> M (bool * A)) l :
  (forall a r, keeps R (f a r)) -> forall r, keeps R (walkFrom f l r).
Proof using Type*.
  intros Hf. induction l as [|a l IH]; intros r; simpl; [apply keeps_ret|].
  apply keeps_bind; [apply Hf|]. intros [[] r']; simpl; [apply IH | apply keeps_ret].
Qed.

End Keeps.

#[local] Instance unchanged_refl {B} (f : state -> B) : Reflexive (unchanged f).
Proof. by intros s. Qed.

#[local] Instance unchanged_trans {B} (f : state -> B) : Transitive (unchanged f).
Proof. unfold unchanged. intros s1 s2 s3 H12 H23. congruence. Qed.

#[local] Instance noKeyLost_refl : Reflexive noKeyLost.
Proof. by intros s k. Qed.

#[local] Instance noKeyLost_trans : Transitive noKeyLost.
Proof. intros s1 s2 s3 H12 H23 k Hk. auto. Qed.

#[local] Instance noKeyGained_refl : Reflexive noKeyGained.
Proof. by intros s k a. Qed.

#[local] Instance noKeyGained_trans : Transitive noKeyGained.
Proof. intros s1 s2 s3 H12 H23 k a Hk. auto. Qed.

(** Carrying a frame property through the code of a function. *)
Ltac frame_step :=
  cbv beta;
  lazymatch goal with
  | |- keeps _ (match ?x with _ => _ end) => destruct x
  | |- keeps _ (bind _ _) => apply keeps_bind
  | |- keeps _ (ret _) => apply keeps_ret
  | |- keeps _ (panic _) => apply keeps_panic
  | |- keeps _ (gets _) => apply keeps_gets
  | |- keeps _ (cache_get _ _) => apply keeps_cache_get
  | |- keeps _ cache_len => apply keeps_cache_len
  | |- keeps _ (deref _) => apply keeps_deref
  | |- keeps _ (forEach _ _) => apply keeps_forEach
  | |- keeps _ (walkFrom _ _ _) => apply keeps_walkFrom
  | |- keeps _ (update _ _) => apply keeps_update
  | |- keeps _ (casLoading _ _) => apply keeps_casLoading
  | |- keeps _ (alloc _) => apply keeps_alloc
  | |- keeps _ (record _) => apply keeps_record
  | |- keeps _ (sendAdd _) => apply keeps_sendAdd
  | |- keeps _ (sendHit _) => apply keeps_sendHit
  | |- keeps _ (sendDelete _) => apply keeps_sendDelete
  | |- keeps _ (now _) => apply keeps_now
  | |- keeps _ (callLoader _ _) => apply keeps_callLoader
  | |- keeps _ (modify _) => apply keeps_modify
  | |- forall _, _ => intro
  end.

Ltac frame :=
  repeat frame_step;
  first [ apply _ | reflexivity
        | (unfold noKeyLost; simpl; by auto)
        | (unfold noKeyGained; simpl; by auto) | idtac ].

(** Reducing a statement about the final state of a call to [keeps]. *)
Tactic Notation "by_frame" constr(R) :=
  match goal with
  | |- context [final (?m ?s)] =>
      let H := fresh in
      enough (keeps R m) as H by (exact (H s))
  end.

(** ** Invalidation *)

#[local] Instance keepsStuck_refl k a : Reflexive (keepsStuck k a).
Proof. by intros s H. Qed.

#[local] Instance keepsStuck_trans k a : Transitive (keepsStuck k a).
Proof. intros s1 s2 s3 H12 H23 H. auto. Qed.

(** Writing an entry keeps the invalidated entry of [k] in place, as long
    as the write does not clear the flag; no write of [local.go] does. *)
Lemma stuck_insert k a a' e' x s :
  heap s !! a' = Some e' ->
  (invalidated e' = true -> invalidated x = true) ->
  keepsStuck k a s (set_heap (fun h => <[a' := x]> h) s).
Proof.
  intros Ha' Hflag [Ht (e & He & Hinv)]. split; [done|]. simpl.
  destruct (decide (a = a')) as [->|Hne].
  - exists x. rewrite list_lookup_insert_eq by (by eapply lookup_lt_Some).
    split; [done|]. apply Hflag. congruence.
  - exists e. by rewrite list_lookup_insert_ne.
Qed.

Lemma stuck_alloc k a x s :
  keepsStuck k a s (set_heap (fun h => h ++ [x]) s).
Proof.
  intros [Ht (e & He & Hinv)]. split; [done|]. exists e. simpl.
  split; [|done]. rewrite lookup_app_l; [done|]. by eapply lookup_lt_Some.
Qed.

Lemma keepsStuck_getOrSet k a a0 : keeps (keepsStuck k a) (cache_getOrSet a0).
Proof.
  intros s. unfold cache_getOrSet, bind, deref, gets.
  destruct (heap s !! a0) as [e0|]; simpl; [|done].
  destruct (table s !! key e0) as [a1|] eqn:Hk0; simpl; [done|].
  intros [Ht He]. split; [|done]. simpl.
  rewrite lookup_insert_ne; [done|]. congruence.
Qed.

(** Carrying [keepsStuck] through the code of a function. *)
Ltac sticky_step :=
  cbv beta;
  lazymatch goal with
  | |- keeps _ (cache_getOrSet _) => apply keepsStuck_getOrSet
  | |- keeps _ (update _ _) => apply keeps_update_at
  | |- keeps _ (casLoading _ _) => apply keeps_casLoading_at
  | |- _ => frame_step
  end.

Ltac sticky :=
  repeat sticky_step;
  first [ apply _
        | apply stuck_alloc
        | (eapply stuck_insert;
           [eassumption | unfold setLoading; by repeat case_match])
        | (let H := fresh in intros H; exact H) ].

Section Invalidation.

Variable sum : Key -> Z.
Variable currentTime : nat -> Time.

(** No call of the facade and no refresh task moves the invalidated entry
    of a key out of the table or clears its flag. *)
Lemma afterCall_stuck (c : localCache) k a op s :
  stuck k a s -> stuck k a (afterCall sum currentTime c op s).
Proof.
  revert s. change (keeps (keepsStuck k a)
                      (fun s => Ret tt (afterCall sum currentTime c op s))).
  assert (Hfinal : forall A (m : M A),
            keeps (keepsStuck k a) m ->
            keeps (keepsStuck k a) (fun s => Ret tt (final (m s))))
    by (intros A m Hm s; apply Hm).
  destruct op; apply Hfinal;
    unfold Get, GetIfPresent, Put, Invalidate, InvalidateAll, Refresh, refresh,
      refreshBody, load, refreshAsync, submitRefresh, cache_walk;
    sticky.
Qed.

Lemma facadeSteps_stuck (c : localCache) k a s s' :
  rtc (facadeStep sum currentTime c) s s' -> stuck k a s -> stuck k a s'.
Proof.
  induction 1 as [|s1 s2 s3 [op ->] _ IH]; [done|].
  intros Hs. apply IH. by apply afterCall_stuck.
Qed.


End Invalidation.

(** ** The facade and the maintenance goroutine, further *)

Section Facade.

Variable sum : Key -> Z.
Variable currentTime : nat -> Time.

(** *** Reads *)

(** X1: [GetIfPresent] is a read: whatever the key and however the call ends,
    the hash table, the policy order and the add channel are as before, no
    entry is allocated, the loader is not called, nothing is submitted, and
    no entry changes but in its access time. *)
Theorem GetIfPresent_only_touches_access_time (c : localCache) k s :
  let s' := final (GetIfPresent sum currentTime c k s) in
  table s' = table s /\ entries s' = entries s /\ addEntry s' = addEntry s /\
  loads s' = loads s /\ tasks s' = tasks s /\
  length (heap s') = length (heap s) /\
  forall a e, heap s !! a = Some e ->
    exists e', heap s' !! a = Some e' /\ sameButAccess e e'.
Proof.
  assert (Hsame : forall e, sameButAccess e e) by (by repeat split).
  destruct (table s !! k) as [a0|] eqn:Hk.
  - destruct (heap s !! a0) as [e0|] eqn:Ha0.
    + rewrite (GetIfPresent_present sum currentTime c k s a0 e0) by done.
      cbv zeta.
      destruct (isExpired _ _ _);
        [destruct (hasRoom (deleteEntry s)) | destruct (hasRoom (hitEntry s))];
        simpl; rewrite ?length_insert; repeat split; eauto.
      * intros a e Ha. destruct (decide (a = a0)) as [->|Hne].
        -- rewrite list_lookup_insert_eq by (by eapply lookup_lt_Some).
           simplify_eq. eexists. split; [done|]. by repeat split.
        -- rewrite list_lookup_insert_ne by done. eauto.
      * intros a e Ha. destruct (decide (a = a0)) as [->|Hne].
        -- rewrite list_lookup_insert_eq by (by eapply lookup_lt_Some).
           simplify_eq. eexists. split; [done|]. by repeat split.
        -- rewrite list_lookup_insert_ne by done. eauto.
    + rewrite (GetIfPresent_dangling sum currentTime c k s a0) by done.
      simpl. repeat split; eauto.
  - rewrite (GetIfPresent_absent sum currentTime c k s) by done.
    simpl. repeat split; eauto.
Qed.

(** X2: [Get] calls the loader only for a key that is absent from the hash
    table: a present entry, fresh or expired, is served without a load,
    however the call ends. *)
Theorem Get_loads_only_absent_keys (c : localCache) k s a :
  table s !! k = Some a ->
  loads (final (Get sum currentTime c k s)) = loads s.
Proof.
  intros Hk. unfold Get. rewrite bind_cache_get, Hk.
  by_frame (unchanged loads). unfold refreshAsync, submitRefresh. frame.
Qed.

(** *** Who writes what *)

(** X3: The policy order and the two listeners belong to the maintenance
    goroutine: no operation of the facade and no refresh task changes the
    order or calls a listener, however the call ends. *)
Theorem facade_leaves_policy_and_listeners (c : localCache) k v a :
  let R := unchanged (fun s => (entries s, inserted s, removed s)) in
  keeps R (Get sum currentTime c k) /\
  keeps R (GetIfPresent sum currentTime c k) /\
  keeps R (Put sum currentTime c k v) /\
  keeps R (Invalidate sum c k) /\
  keeps R (InvalidateAll c) /\
  keeps R (Refresh sum currentTime c k) /\
  keeps R (refresh currentTime c a).
Proof.
  repeat split;
    unfold Get, GetIfPresent, Put, Invalidate, InvalidateAll, Refresh, refresh,
      refreshBody, load, refreshAsync, submitRefresh, cache_getOrSet, cache_walk;
    frame.
Qed.

(** X4: Removal from the hash table is left to the maintenance goroutine: no
    operation of the facade and no refresh task takes a key out of the
    table, not even [Invalidate] or a read of an expired entry. *)
Theorem facade_never_deletes (c : localCache) k v a :
  keeps noKeyLost (Get sum currentTime c k) /\
  keeps noKeyLost (GetIfPresent sum currentTime c k) /\
  keeps noKeyLost (Put sum currentTime c k v) /\
  keeps noKeyLost (Invalidate sum c k) /\
  keeps noKeyLost (InvalidateAll c) /\
  keeps noKeyLost (Refresh sum currentTime c k) /\
  keeps noKeyLost (refresh currentTime c a).
Proof.
  repeat split;
    unfold Get, GetIfPresent, Put, Invalidate, InvalidateAll, Refresh, refresh,
      refreshBody, load, refreshAsync, submitRefresh, cache_getOrSet, cache_walk;
    frame.
  intros k' Hk'. simpl. rewrite lookup_insert. by case_decide.
Qed.

(** X5: The sweeps of the maintenance goroutine only take entries out: removal
    and expiry never write an entry object, never allocate one, never send
    on a channel, never call the loader and never submit a refresh. *)
Theorem maintenance_leaves_entries_and_channels (c : localCache) a :
  let R := unchanged (fun s => (heap s, addEntry s, hitEntry s, deleteEntry s,
                                tasks s, loads s)) in
  keeps R (remove c a) /\
  keeps R (removeAll c) /\
  keeps R (expireEntries currentTime c) /\
  keeps R (postReadCleanup currentTime c) /\
  keeps R (postWriteCleanup currentTime c).
Proof.
  repeat split;
    unfold postReadCleanup, postWriteCleanup, expireEntries, policy_walkAccess,
      expireVisit, removeAll, remove, policy_remove, cache_walk, cache_delete,
      callOnRemoval;
    frame.
Qed.

End Facade.

(** *** Configuration *)

Lemma options_keep_loader (opts : list Option) :
  Forall isOption opts ->
  forall c, loader (fold_left (fun c opt => opt c) opts c) = loader c.
Proof.
  induction 1 as [|opt opts Hopt _ IH]; intros c; simpl; [done|].
  rewrite IH. by destruct Hopt.
Qed.

Lemma options_keep_cap_bounds (opts : list Option) :
  Forall isOption opts ->
  forall c, 0 <= cap c <= 2 ^ 30 ->
    0 <= cap (fold_left (fun c opt => opt c) opts c) <= 2 ^ 30.
Proof.
  induction 1 as [|opt opts Hopt _ IH]; intros c Hc; simpl; [done|].
  apply IH. destruct Hopt; simpl; try done.
  change maximumCapacity with (2 ^ 30).
  destruct (Z.ltb_spec n 0); destruct (Z.gtb_spec n (2 ^ 30));
    destruct (Z.gtb_spec 0 (2 ^ 30)); lia.
Qed.

(** X6: Whatever options are passed, a cache made by [New] has no loader, a
    cache made by [NewLoadingCache] has the loader it was given, and the
    capacity of either lies between 0 (unlimited) and 2^30. *)
Theorem constructors_fix_loader_and_bound_cap (ld : LoaderFunc) (opts : list Option) :
  Forall isOption opts ->
  loader (New opts) = None /\
  loader (NewLoadingCache ld opts) = Some ld /\
  0 <= cap (New opts) <= 2 ^ 30 /\
  0 <= cap (NewLoadingCache ld opts) <= 2 ^ 30.
Proof.
  intros Hopts. unfold New, NewLoadingCache.
  rewrite !options_keep_loader by done.
  repeat split; try done; apply options_keep_cap_bounds; by vm_compute.
Qed.

(** *** Freshness over time *)

(** [needRefresh] asks for a refresh exactly when no refresh is in flight,
    the setting is enabled, and the write time is positive and older than
    [t - refreshAfterWrite]. *)
Lemma needRefresh_iff (c : localCache) (e : entry) (t : Time) :
  needRefresh c e t = true <->
    loading e = false /\ refreshAfterWrite c > 0 /\
    0 < writeTime e < t - refreshAfterWrite c.
Proof.
  unfold needRefresh, UnixNano, Add. rewrite Z.add_opp_r.
  destruct (loading e); [split; [done | by intros [? _]]|].
  destruct (Z.gtb_spec (refreshAfterWrite c) 0);
    [|split; [done | intros (_ & ? & _); lia]].
  destruct (Z.gtb_spec (writeTime e) 0); simpl;
    [|split; [done | intros (_ & _ & ?); lia]].
  destruct (Z.ltb_spec (writeTime e) (t - refreshAfterWrite c));
    split; try done; try lia.
Qed.

(** X8: An entry that is expired stays expired as time passes, as long as it is
    not written. *)
Theorem isExpired_mono (c : localCache) (e : entry) (t t' : Time) :
  t <= t' ->
  isExpired c e t = true ->
  isExpired c e t' = true.
Proof.
  intros Ht. rewrite !isExpired_orb, !orb_true_iff, !andb_true_iff, !Z.ltb_lt.
  intros [[Hinv | [Ha Hlt]] | [Hw Hlt]];
    [by left; left | left; right | right]; (split; [done | lia]).
Qed.


(** ** Sequences of calls *)

Section Sequences.

Variable sum : Key -> Z.
Variable currentTime : nat -> Time.

(** *** Loading *)

(** X9: A successful load on a miss: [Get] records the miss and the load,
    returns the loaded value, and sends a new entry, stamped with the time
    the loader returned, to the policy.  The hash table is not written, so
    the key is still absent when [Get] returns. *)
Theorem Get_absent_loads (c : localCache) k s ld v :
  table s !! k = None ->
  loader c = Some ld ->
  ld (loads s) k = (v, None) ->
  hasRoom (addEntry s) = true ->
  exists s',
    Get sum currentTime c k s = Ret (Some v, None) s' /\
    stats s' = stats s ++
      [RecordMisses 1;
       RecordLoadSuccess (Sub (currentTime (S (clock s))) (currentTime (clock s)))] /\
    heap s' = heap s ++
      [mkEntry k (sum k) v (UnixNano (currentTime (S (clock s))))
         (UnixNano (currentTime (S (clock s)))) false false] /\
    addEntry s' = addEntry s ++ [length (heap s)] /\
    table s' = table s /\
    loads s' = S (loads s).
Proof.
  intros Hk Hld Hv Hroom. unfold Get.
  rewrite bind_cache_get, Hk, bind_record. unfold load. rewrite Hld.
  rewrite bind_now. unfold bind at 1, callLoader at 1. simpl loads.
  rewrite Hv, bind_now. cbv zeta. cbn [snd fst].
  rewrite bind_record, bind_alloc.
  erewrite bind_update by apply alloc_lookup. rewrite alloc_set.
  erewrite bind_update by apply alloc_lookup. rewrite alloc_set.
  unfold bind, sendAdd. simpl. rewrite Hroom.
  eexists. split; [reflexivity|]. simpl.
  by rewrite <- app_assoc.
Qed.

(** *** Capacity *)


(** *** Invalidation *)

(** X11: [Put] does not revive an invalidated entry: after [Invalidate k], a
    [Put k v] stores [v] in the same entry and leaves its flag set, so the
    [GetIfPresent k] that follows still records a miss and answers not
    found. *)
Theorem Invalidate_Put_GetIfPresent (c : localCache) k v s a e s1 s2 :
  table s !! k = Some a ->
  heap s !! a = Some e ->
  Invalidate sum c k s = Ret tt s1 ->
  Put sum currentTime c k v s1 = Ret tt s2 ->
  heap s2 !! a =
    Some (setWriteTime (UnixNano (currentTime (clock s)))
            (setValue v (setInvalidated true e))) /\
  GetIfPresent sum currentTime c k s2 =
    let s3 := set_stats (fun l => l ++ [RecordMisses 1])
                (set_clock (S (clock s2)) s2) in
    if hasRoom (deleteEntry s2)
    then Ret (None, false) (set_deleteEntry (fun q => q ++ [Some a]) s3)
    else Blocked s3.
Proof.
  intros Hk Ha Hinv Hput.
  assert (Hlen : (a < length (heap s))%nat) by (by eapply lookup_lt_Some).
  unfold Invalidate in Hinv.
  rewrite bind_cache_get, Hk, (bind_update _ _ e) in Hinv by done.
  unfold sendDelete in Hinv. simpl in Hinv.
  destruct (hasRoom (deleteEntry s)); [|done]. simplify_eq.
  rewrite (Put_present sum currentTime c k v _ a (setInvalidated true e))
    in Hput by (done || heap_lookup).
  unfold sendAdd in Hput. simpl in Hput.
  destruct (hasRoom (addEntry s)); [|done]. simplify_eq.
  split; [heap_lookup|].
  erewrite GetIfPresent_present by (done || heap_lookup).
  done.
Qed.

(** Setting the flag of every entry of a list of valid addresses. *)
Lemma invalidate_each (l : list addr) :
  forall s,
    (forall a, a ∈ l -> is_Some (heap s !! a)) ->
    exists s',
      forEach (fun a => update a (setInvalidated true)) l s = Ret tt s' /\
      table s' = table s /\ deleteEntry s' = deleteEntry s /\
      clock s' = clock s /\
      (forall a e, heap s !! a = Some e ->
         exists e', heap s' !! a = Some e' /\ key e' = key e /\
                    (a ∈ l -> invalidated e' = true)).
Proof.
  induction l as [|a l IH]; intros s Hval; simpl.
  - exists s. repeat split; [done..|].
    intros a e Ha. exists e. split; [done|]. split; [done|].
    by intros ?%elem_of_nil.
  - destruct (Hval a) as [e Ha]; [by left|].
    rewrite (bind_update _ _ e) by done.
    destruct (IH (set_heap (fun h => <[a := setInvalidated true e]> h) s))
      as (s' & Hrun & Ht & Hq & Hc & Hheap).
    { intros b Hb. simpl. apply lookup_lt_is_Some. rewrite length_insert.
      apply lookup_lt_is_Some. apply Hval. by right. }
    exists s'. split; [done|]. split; [done|]. split; [done|]. split; [done|].
    intros b eb Hb. destruct (decide (b = a)) as [->|Hne].
    + destruct (Hheap a (setInvalidated true e)) as (e' & He' & Hkey & Hin);
        [heap_lookup|].
      simplify_eq.
      exists e'. split; [done|]. split; [done|]. intros _.
      destruct (decide (a ∈ l)) as [Hal|Hal]; [by apply Hin|].
      clear Hin.
      assert (Hkeep : keeps (unchanged (fun s => heap s !! a))
                (forEach (fun a => update a (setInvalidated true)) l)).
      { clear -Hal. induction l as [|b l IH]; simpl; [apply keeps_ret; apply _|].
        apply not_elem_of_cons in Hal as [Hne Hal].
        apply keeps_bind; [apply _ | apply _ | | intros _; by apply IH].
        apply keeps_update; [apply _ | apply _ |].
        intros s x. unfold unchanged. simpl. by rewrite list_lookup_insert_ne. }
      specialize (Hkeep (set_heap (fun h => <[a := setInvalidated true e]> h) s)).
      rewrite Hrun in Hkeep. unfold unchanged in Hkeep. simpl in Hkeep.
      rewrite list_lookup_insert_eq in Hkeep by (by eapply lookup_lt_Some).
      by simplify_eq.
    + destruct (Hheap b eb) as (e' & He' & Hkey & Hin).
      { simpl. by rewrite list_lookup_insert_ne. }
      exists e'. split; [done|]. split; [done|]. intros Hbl. apply Hin.
      by apply elem_of_cons in Hbl as [?|?].
Qed.

(** X12: In the state in which [InvalidateAll] returned no key is found:
    for every key, [GetIfPresent] answers not found (or waits on the delete
    channel) and does not panic.  For a key the hash table held when
    [InvalidateAll] was called this stays so whatever calls of the facade
    and refresh tasks run afterwards, as long as the maintenance goroutine
    has taken no event. *)
Theorem InvalidateAll_then_GetIfPresent (c : localCache) s s1 s2 k k' :
  tableOK s ->
  InvalidateAll c s = Ret tt s1 ->
  rtc (facadeStep sum currentTime c) s1 s2 ->
  notFound (GetIfPresent sum currentTime c k' s1) /\
  (is_Some (table s !! k) ->
   notFound (GetIfPresent sum currentTime c k s2)).
Proof.
  intros Hok Hall Hsteps. unfold InvalidateAll, cache_walk in Hall.
  rewrite bind_bind, bind_gets in Hall.
  destruct (invalidate_each (snd <$> map_to_list (table s)) s)
    as (s0 & Hrun & Ht & Hq & Hc & Hheap).
  { intros a Ha. apply list_elem_of_fmap in Ha as ([k0 a'] & -> & Hin).
    apply elem_of_map_to_list in Hin.
    destruct (Hok k0 a' Hin) as (e & He & _). by eexists. }
  unfold bind at 1 in Hall. rewrite Hrun in Hall.
  unfold sendDelete in Hall. destruct (hasRoom (deleteEntry s0)); [|done].
  simplify_eq.
  assert (Hstuck : forall k0 a, table s !! k0 = Some a ->
            stuck k0 a (set_deleteEntry (fun q => q ++ [None]) s0)).
  { intros k0 a Hk0. destruct (Hok k0 a Hk0) as (e & He & _).
    destruct (Hheap a e He) as (e' & He' & _ & Hinv).
    split; [simpl; congruence|]. exists e'. split; [done|]. apply Hinv.
    apply list_elem_of_fmap. exists (k0, a). split; [done|].
    by apply elem_of_map_to_list. }
  assert (Hmiss : forall k0 a s', stuck k0 a s' ->
            notFound (GetIfPresent sum currentTime c k0 s')).
  { intros k0 a s' [Hk0 (e & He & Hinv)].
    rewrite (GetIfPresent_present sum currentTime c k0 s' a e) by done.
    unfold isExpired. rewrite Hinv. cbv zeta. by destruct (hasRoom _). }
  split.
  - destruct (table s !! k') as [a|] eqn:Hk'.
    + eapply Hmiss. by apply Hstuck.
    + rewrite GetIfPresent_absent by (simpl; congruence). done.
  - intros [a Hk]. apply (Hmiss k a).
    eapply facadeSteps_stuck; [exact Hsteps|]. by apply Hstuck.
Qed.

(** *** Close and removal *)

Lemma forEach_ext (f g : addr -> M unit) l :
  (forall a s, f a s = g a s) -> forall s, forEach f l s = forEach g l s.
Proof.
  intros Hfg. induction l as [|a l IH]; intros s; simpl; [done|].
  unfold bind. rewrite Hfg. destruct (g a s); [apply IH | done..].
Qed.

(** The two walks of [removeAll] are one walk with an optional call. *)
Lemma removeAll_walk (c : localCache) s :
  removeAll c s =
    cache_walk (fun en => cache_delete en >>
                          if onRemoval c then callOnRemoval en else ret tt) s.
Proof.
  unfold removeAll, cache_walk. destruct (onRemoval c); simpl; [done|].
  rewrite !bind_gets. apply forEach_ext.
  intros a s0. unfold bind. by destruct (cache_delete a s0) as [[] ?| |].
Qed.

Lemma delete_each (b : bool) (kvs : list (Key * addr)) :
  forall s,
    (forall k a, (k, a) ∈ kvs -> exists e, heap s !! a = Some e /\ key e = k) ->
    (forall k a, table s !! k = Some a -> (k, a) ∈ kvs) ->
    exists s',
      forEach (fun en => cache_delete en >>
                         if b then callOnRemoval en else ret tt)
        (snd <$> kvs) s = Ret tt s' /\
      (forall k, table s' !! k = None) /\
      removed s' = removed s ++
        (if b then (snd <$> kvs) ≫= removalOf (heap s) else []) /\
      heap s' = heap s /\ entries s' = entries s /\ stats s' = stats s.
Proof.
  induction kvs as [|[k a] kvs IH]; intros s Hval Hsub.
  - exists s. simpl. split; [done|]. split.
    { intros k. destruct (table s !! k) as [a|] eqn:Hk; [|done].
      by apply Hsub, elem_of_nil in Hk. }
    destruct b; by rewrite app_nil_r.
  - destruct (Hval k a) as (e & Ha & Hkey); [by left|].
    rewrite fmap_cons. cbn [snd forEach].
    unfold cache_delete at 1.
    rewrite !bind_bind, (bind_deref _ e) by done.
    rewrite !bind_bind, bind_gets, Hkey.
    set (t' := if decide (table s !! k = Some a)
               then delete k (table s) else table s).
    set (s0 := set_removed
                 (fun l => l ++ (if b then [(k, value e)] else []))
                 (set_table (fun _ => t') s)).
    destruct (IH s0) as (s' & Hrun & Hnone & Hrem & Hheap & Hent & Hstats).
    { intros k' a' Hin. apply (Hval k' a'). by right. }
    { intros k' a'. unfold s0, t'. simpl. intros Hk'.
      assert (Hin : (k', a') ∈ (k, a) :: kvs).
      { apply Hsub. case_decide; [|done].
        by apply lookup_delete_Some in Hk' as [_ ?]. }
      apply elem_of_cons in Hin as [[= -> ->]|Hin]; [|done].
      case_decide; [by rewrite lookup_delete_eq in Hk' | congruence]. }
    exists s'. split.
    { rewrite <- Hrun. unfold s0, t', callOnRemoval.
      destruct (decide (table s !! k = Some a)), b;
        rewrite ?bind_modify, ?bind_ret, ?bind_bind;
        rewrite ?(bind_deref _ e) by done;
        rewrite ?bind_modify, ?bind_ret; rewrite ?Hkey;
        f_equal; unfold set_removed, set_table; simpl; rewrite ?app_nil_r;
        first [done | by destruct s]. }
    split; [done|]. unfold s0 in Hrem, Hheap, Hent, Hstats.
    simpl in Hrem, Hheap, Hent, Hstats.
    split; [|done]. rewrite Hrem, <- app_assoc. f_equal.
    destruct b; [|done]. rewrite bind_cons. unfold removalOf at 2.
    by rewrite Ha, Hkey.
Qed.

Lemma length_removals (h : list entry) (l : list addr) :
  (forall a, a ∈ l -> is_Some (h !! a)) ->
  length (l ≫= removalOf h) = length l.
Proof.
  induction l as [|a l IH]; intros Hall; [done|].
  rewrite bind_cons, length_app. simpl.
  destruct (Hall a) as [e He]; [by left|].
  unfold removalOf at 1. rewrite He. simpl. f_equal.
  apply IH. intros b Hb. apply Hall. by right.
Qed.

(** X13: Closing drains the table: on the close signal the maintenance goroutine
    empties the hash table, calls the removal listener, if one is set, once
    for each entry the table held, and stops.  The order the policy keeps
    is not touched. *)
Theorem processEntries_close_drains policy_add policy_hit (c : localCache) s :
  tableOK s ->
  exists s',
    processEntries currentTime policy_add policy_hit c CloseCh s = Ret false s' /\
    table s' = ∅ /\
    removed s' = removed s ++
      (if onRemoval c
       then (snd <$> map_to_list (table s)) ≫= removalOf (heap s) else []) /\
    length (removed s') =
      (length (removed s) + if onRemoval c then size (table s) else 0)%nat /\
    entries s' = entries s /\ heap s' = heap s.
Proof.
  intros Hok. unfold processEntries.
  destruct (delete_each (onRemoval c) (map_to_list (table s)) s)
    as (s' & Hrun & Hnone & Hrem & Hheap & Hent & _).
  { intros k a Hin. by apply Hok, elem_of_map_to_list. }
  { intros k a Hk. by apply elem_of_map_to_list. }
  exists s'. split.
  { unfold bind at 1. rewrite removeAll_walk. unfold cache_walk.
    by rewrite bind_gets, Hrun. }
  split; [by apply map_empty|]. split; [done|]. split; [|done].
  rewrite Hrem, length_app. f_equal.
  destruct (onRemoval c); [|done].
  rewrite <- length_map_to_list, length_removals, length_fmap; [done|].
  intros a Ha. apply list_elem_of_fmap in Ha as ([k a'] & -> & Hin).
  apply elem_of_map_to_list in Hin.
  destruct (Hok k a' Hin) as (e & He & _). by eexists.
Qed.

(** X14: A delete event for an entry the policy no longer holds is ignored, so
    handling the same delete twice removes the entry and calls the removal
    listener once. *)
Theorem remove_twice (c : localCache) a s s1 :
  remove c a s = Ret tt s1 ->
  (a ∉ entries s1) /\ remove c a s1 = Ret tt s1.
Proof.
  intros Hrm.
  assert (Hgone : a ∉ entries s1).
  { unfold remove, policy_remove in Hrm.
    rewrite !bind_bind, bind_gets in Hrm.
    destruct (decide (a ∈ entries s)) as [Hin|Hout].
    - rewrite !bind_bind, bind_modify in Hrm.
      match type of Hrm with
      | ?m ?s0 = _ =>
          assert (Hkeep : keeps (unchanged entries) m)
            by (unfold cache_delete, callOnRemoval; frame);
          specialize (Hkeep s0)
      end.
      rewrite Hrm in Hkeep. unfold unchanged in Hkeep. simpl in Hkeep.
      rewrite Hkeep. intros Hin'%list_elem_of_filter. by destruct Hin'.
    - rewrite bind_ret in Hrm. unfold ret in Hrm. by simplify_eq. }
  split; [done|]. unfold remove, policy_remove.
  rewrite !bind_bind, bind_gets. by rewrite decide_False.
Qed.

(** X15: The read counter stays between 0 and the drain threshold over every
    cleanup, so the 32-bit counter never wraps. *)
Theorem readCount_stays_in_range (c : localCache) s :
  0 <= readCount s <= drainThreshold ->
  0 <= readCount (final (postReadCleanup currentTime c s)) <= drainThreshold /\
  readCount (final (postWriteCleanup currentTime c s)) = 0.
Proof.
  intros Hrange.
  assert (Hsweep : keeps (unchanged readCount) (expireEntries currentTime c)).
  { unfold expireEntries, policy_walkAccess, expireVisit, remove, policy_remove,
      cache_delete, callOnRemoval. frame. }
  split.
  - unfold postReadCleanup. rewrite bind_gets, bind_modify.
    assert (Hwrap : wrap32 (readCount s + 1) = readCount s + 1).
    { unfold wrap32, drainThreshold in *. rewrite Z.mod_small; lia. }
    rewrite Hwrap. unfold drainThreshold in *.
    destruct (Z.gtb_spec (readCount s + 1) 64).
    + rewrite bind_modify. rewrite (Hsweep _). simpl. lia.
    + simpl. lia.
  - unfold postWriteCleanup. rewrite bind_modify. by rewrite (Hsweep _).
Qed.

(** X16: Invalidate-all empties: once [InvalidateAll] has returned and the
    maintenance goroutine has taken its nil message from the delete channel,
    the hash table is empty, however the cleanup that follows ends. *)
Theorem InvalidateAll_then_maintenance_empties policy_add policy_hit
    (c : localCache) s s1 :
  tableOK s ->
  deleteEntry s = [] ->
  InvalidateAll c s = Ret tt s1 ->
  table (final (processEntries currentTime policy_add policy_hit c DeleteCh s1))
  = ∅.
Proof.
  intros Hok Hq Hall. unfold InvalidateAll, cache_walk in Hall.
  rewrite bind_bind, bind_gets in Hall.
  destruct (invalidate_each (snd <$> map_to_list (table s)) s)
    as (s0 & Hrun & Ht & Hq0 & _ & Hheap).
  { intros a Ha. apply list_elem_of_fmap in Ha as ([k' a'] & -> & Hin).
    apply elem_of_map_to_list in Hin.
    destruct (Hok k' a' Hin) as (e & He & _). by eexists. }
  unfold bind at 1 in Hall. rewrite Hrun in Hall.
  unfold sendDelete in Hall. destruct (hasRoom (deleteEntry s0)); [|done].
  simplify_eq.
  unfold processEntries, bind at 1, recvDelete. simpl deleteEntry.
  rewrite Hq0, Hq. simpl app. cbv iota beta.
  set (s2 := set_deleteEntry _ _).
  destruct (delete_each (onRemoval c) (map_to_list (table s2)) s2)
    as (s3 & Hrm & Hnone & _).
  { intros k a Hin. apply elem_of_map_to_list in Hin.
    unfold s2 in Hin. simpl in Hin. rewrite Ht in Hin.
    destruct (Hok k a Hin) as (e & He & Hkey).
    destruct (Hheap a e He) as (e' & He' & Hkey' & _).
    exists e'. split; [done | congruence]. }
  { intros k a Hk. by apply elem_of_map_to_list. }
  unfold bind at 1. rewrite removeAll_walk.
  unfold cache_walk. rewrite bind_gets, Hrm.
  apply map_empty. intros k.
  apply eq_None_not_Some. intros [a Hk].
  assert (Hkeep : keeps noKeyGained
            (postReadCleanup currentTime c >> ret true)).
  { unfold postReadCleanup, expireEntries, policy_walkAccess, expireVisit,
      remove, policy_remove, cache_delete, callOnRemoval. frame.
    intros k' a'. simpl. by intros [_ ?]%lookup_delete_Some. }
  apply (Hkeep s3) in Hk. by rewrite Hnone in Hk.
Qed.

(** *** Put and expiry *)

(** X17: [Put] on a present key writes the value and the write time but not the
    access time: an entry that has outlived its access expiry is still
    expired after a [Put], and the [GetIfPresent] that follows records a
    miss and answers not found. *)
Theorem Put_keeps_access_expiry (c : localCache) k v s a e s1 :
  table s !! k = Some a ->
  heap s !! a = Some e ->
  expireAfterAccess c > 0 ->
  accessTime e < currentTime (S (clock s)) - expireAfterAccess c ->
  Put sum currentTime c k v s = Ret tt s1 ->
  GetIfPresent sum currentTime c k s1 =
    let s2 := set_stats (fun l => l ++ [RecordMisses 1])
                (set_clock (S (clock s1)) s1) in
    if hasRoom (deleteEntry s1)
    then Ret (None, false) (set_deleteEntry (fun q => q ++ [Some a]) s2)
    else Blocked s2.
Proof.
  intros Hk Ha Hd Hold Hput.
  rewrite (Put_present sum currentTime c k v s a e) in Hput by done.
  unfold sendAdd in Hput. simpl in Hput.
  destruct (hasRoom (addEntry s)); [|done]. simplify_eq.
  erewrite GetIfPresent_present by (done || heap_lookup).
  rewrite isExpired_orb. simpl accessTime. simpl clock.
  rewrite (proj2 (Z.gtb_gt _ _)) by done.
  rewrite (proj2 (Z.ltb_lt _ _)) by done.
  by rewrite orb_true_r.
Qed.

(** *** Refresh *)

(** X18: A refresh whose loader fails keeps the entry as it is: value and write
    time are the old ones, nothing is sent to the policy, the error is
    counted and dropped, and the [loading] flag is cleared. *)
Theorem refresh_error_keeps_value (c : localCache) a s e ld v err :
  loader c = Some ld ->
  heap s !! a = Some e ->
  ld (loads s) (key e) = (v, Some err) ->
  exists s',
    refresh currentTime c a s = Ret tt s' /\
    heap s' = <[a := fst (setLoading false e)]> (heap s) /\
    value (fst (setLoading false e)) = value e /\
    loading (fst (setLoading false e)) = false /\
    stats s' = stats s ++
      [RecordLoadError (Sub (currentTime (S (clock s))) (currentTime (clock s)))] /\
    addEntry s' = addEntry s /\ table s' = table s.
Proof.
  intros Hld Ha Herr. unfold refresh, refreshBody. rewrite Hld.
  rewrite !bind_bind, bind_now, !bind_bind, (bind_deref _ e) by done.
  rewrite bind_bind. unfold bind at 1, callLoader at 1. simpl loads.
  rewrite Herr, bind_bind, bind_now. cbv zeta. cbn [snd fst].
  rewrite bind_record, (bind_casLoading _ _ e) by done.
  eexists. split; [reflexivity|]. simpl.
  unfold setLoading. destruct (loading e) eqn:Hl; simpl; by rewrite ?Hl.
Qed.

(** X19: Serving stale, then fresh: [Get] of an entry that has expired returns
    the old value at once and submits one refresh; when that refresh has run
    with a loader that succeeds, the next [Get] is a hit on the same entry
    and returns the loaded value; the loader has been called once.  Both
    calls are taken with room in the add channel and in the hit channel, on
    which they would otherwise wait. *)
Theorem Get_stale_then_refreshed (c : localCache) k s a e ld v :
  table s !! k = Some a ->
  heap s !! a = Some e ->
  loader c = Some ld ->
  loading e = false ->
  isExpired c e (currentTime (clock s)) = true ->
  ld (loads s) (key e) = (v, None) ->
  hasRoom (addEntry s) = true ->
  hasRoom (hitEntry s) = true ->
  isExpired c
    (mkEntry (key e) (hash e) v (UnixNano (currentTime (clock s)))
       (UnixNano (currentTime (S (S (clock s))))) (invalidated e) false)
    (currentTime (S (S (S (clock s))))) = false ->
  exists s1 s2 s3,
    Get sum currentTime c k s = Ret (Some (value e), None) s1 /\
    tasks s1 = tasks s ++ [if exec c then ExecRefresh a else GoRefresh a] /\
    refresh currentTime c a s1 = Ret tt s2 /\
    Get sum currentTime c k s2 = Ret (Some v, None) s3 /\
    tasks s3 = tasks s1 /\
    loads s3 = S (loads s) /\
    stats s3 = stats s ++
      [RecordMisses 1;
       RecordLoadSuccess (Sub (currentTime (S (S (clock s))))
                              (currentTime (S (clock s))));
       RecordHits 1].
Proof.
  intros Hk Ha Hld Hl Hexp Hv Hadd Hhit Hfresh.
  assert (Hlen : (a < length (heap s))%nat) by (by eapply lookup_lt_Some).
  set (t0 := UnixNano (currentTime (clock s))) in *.
  set (t2 := UnixNano (currentTime (S (S (clock s))))) in *.
  set (e1 := mkEntry (key e) (hash e) (value e) t0 (writeTime e)
               (invalidated e) true).
  set (s1 := set_tasks
               (fun l => l ++ [if exec c then ExecRefresh a else GoRefresh a])
               (set_heap (fun h => <[a := e1]> h)
                  (set_stats (fun l => l ++ [RecordMisses 1])
                     (set_clock (S (clock s)) s)))).
  set (e2 := mkEntry (key e) (hash e) v t0 t2 (invalidated e) false) in *.
  set (s2 := set_heap (fun h => <[a := e2]> h)
               (set_addEntry (fun q => q ++ [a])
                  (set_stats
                     (fun l => l ++
                        [RecordLoadSuccess
                           (Sub (currentTime (S (S (clock s))))
                                (currentTime (S (clock s))))])
                     (set_clock (S (S (S (clock s))))
                        (set_loads (S (loads s)) s1))))).
  assert (Hget1 : Get sum currentTime c k s = Ret (Some (value e), None) s1).
  { unfold Get. rewrite bind_cache_get, Hk, bind_now, (bind_deref _ e) by done.
    rewrite Hexp, !bind_bind, bind_record, Hld.
    rewrite bind_bind, (bind_update _ _ e) by done.
    unfold refreshAsync. rewrite Hld, bind_bind.
    erewrite bind_casLoading by heap_lookup.
    unfold setLoading. simpl loading. rewrite Hl. simpl Bool.eqb.
    cbv iota. cbn [snd fst]. cbv iota.
    unfold submitRefresh. rewrite bind_modify.
    erewrite bind_deref by heap_lookup. unfold ret. simpl value.
    f_equal. unfold s1, set_tasks, set_heap. simpl. f_equal.
    by rewrite list_insert_insert_eq. }
  assert (Hh1 : heap s1 !! a = Some e1) by heap_lookup.
  assert (Hrun : refresh currentTime c a s1 = Ret tt s2).
  { unfold refresh, refreshBody. rewrite Hld.
    rewrite !bind_bind, bind_now, !bind_bind, (bind_deref _ e1) by done.
    rewrite bind_bind. unfold bind at 1, callLoader at 1.
    simpl loads. simpl key. rewrite Hv, bind_bind, bind_now.
    cbv zeta. cbn [snd fst].
    rewrite !bind_bind, bind_record, !bind_bind.
    erewrite bind_update by heap_lookup.
    rewrite bind_bind. erewrite bind_update by heap_lookup.
    unfold bind at 1, sendAdd at 1. simpl addEntry. rewrite Hadd.
    erewrite bind_casLoading by heap_lookup.
    unfold ret. f_equal.
    unfold s2, set_heap. simpl. f_equal.
    by rewrite !list_insert_insert_eq. }
  assert (Hh2 : heap s2 !! a = Some e2) by heap_lookup.
  exists s1, s2. eexists. split; [done|]. split; [done|]. split; [done|].
  split.
  { unfold Get. rewrite bind_cache_get.
    change (table s2) with (table s). rewrite Hk.
    rewrite bind_now, (bind_deref _ e2) by done.
    change (clock s2) with (S (S (S (clock s)))).
    rewrite Hfresh, !bind_bind, bind_record.
    rewrite bind_bind. erewrite bind_update by done.
    unfold bind at 1, sendHit at 1.
    change (hitEntry _) with (hitEntry s) at 1. rewrite Hhit.
    erewrite bind_deref by heap_lookup. reflexivity. }
  simpl. split; [done|]. split; [done|]. by rewrite <- !app_assoc.
Qed.

(** X20: Asking twice is asking once: a second [Refresh] of a present key,
    issued while the first refresh has not run, changes nothing and submits
    nothing. *)
Theorem Refresh_twice (c : localCache) k s a e ld :
  loader c = Some ld ->
  table s !! k = Some a ->
  heap s !! a = Some e ->
  exists s1,
    Refresh sum currentTime c k s = Ret tt s1 /\
    Refresh sum currentTime c k s1 = Ret tt s1 /\
    tasks s1 = tasks s ++
      (if loading e then []
       else [if exec c then ExecRefresh a else GoRefresh a]).
Proof.
  intros Hld Hk Ha.
  assert (Hlen : (a < length (heap s))%nat) by (by eapply lookup_lt_Some).
  unfold Refresh, refreshAsync, submitRefresh. rewrite Hld.
  rewrite bind_cache_get, Hk, (bind_casLoading _ _ e) by done.
  assert (Hagain : forall s1 e1,
    heap s1 !! a = Some e1 -> loading e1 = true -> table s1 = table s ->
    (let* en := cache_get k (sum k)
     in match en with
        | Some a0 =>
            let* won := casLoading a0 true
            in if won
               then modify (set_tasks (fun l =>
                      l ++ [if exec c then ExecRefresh a0 else GoRefresh a0]))
               else ret tt
        | None => load sum currentTime c k >> ret tt
        end) s1 = Ret tt s1).
  { intros s1 e1 H1 Hl1 Ht1.
    rewrite bind_cache_get, Ht1, Hk, (bind_casLoading _ _ e1) by done.
    unfold setLoading. rewrite Hl1. simpl. unfold ret. f_equal.
    destruct s1. unfold set_heap. simpl in *. f_equal.
    by apply list_insert_id. }
  unfold setLoading. destruct (loading e) eqn:Hl; simpl Bool.eqb; cbv iota;
    cbn [snd fst]; cbv iota.
  - eexists. split; [reflexivity|]. split; [|by rewrite app_nil_r].
    eapply Hagain; [heap_lookup|done..].
  - eexists. split; [reflexivity|]. split; [|done].
    eapply Hagain; [heap_lookup|done..].
Qed.

(** *** The sweep on a sorted order *)

(** X21: When the policy's order is ascending in access time, a sweep that stops
    short of its bound of 16 removals has removed every expired entry of the
    policy: each entry that is left has an access time at or above the
    cutoff. *)
Theorem expireEntries_complete_when_sorted (c : localCache) s :
  policyOK s ->
  accessSorted (heap s) (entries s) ->
  expireAfterAccess c > 0 ->
  (length (victims c (currentTime (clock s)) s) < 16)%nat ->
  exists s',
    expireEntries currentTime c s = Ret tt s' /\
    forall a, a ∈ entries s' ->
      currentTime (clock s) - expireAfterAccess c <= accessOf (heap s') a.
Proof.
  intros [Hnd Hheap] Hsorted Hd Hfew. unfold expireEntries.
  rewrite (proj2 (Z.leb_gt _ _)) by lia.
  rewrite bind_now. unfold policy_walkAccess.
  rewrite bind_bind, bind_gets. simpl entries.
  unfold UnixNano, Add. rewrite Z.add_opp_r.
  destruct (walk_expire c (currentTime (clock s) - expireAfterAccess c)
              (entries s) drainMax (set_clock (S (clock s)) s))
    as (r & s' & Hwalk & Hent & _ & _ & _ & _ & Hfr);
    [done | done | done | done |].
  destruct Hfr as [Hh _]. simpl in Hh, Hent.
  exists s'. split; [unfold bind; by rewrite Hwalk|].
  unfold victims, expiredPrefix in *.
  change (Z.to_nat drainMax) with 16%nat in *.
  set (p := fun a => accessOf (heap s) a
                     <? currentTime (clock s) - expireAfterAccess c) in *.
  rewrite length_take in Hfew, Hent.
  rewrite Nat.min_r in Hent by lia.
  rewrite Hh, Hent. intros b Hb.
  apply list_elem_of_lookup in Hb as [j Hj].
  rewrite lookup_drop in Hj.
  destruct (drop (length (takeWhile p (entries s))) (entries s) !! 0%nat)
    as [a0|] eqn:H0.
  - assert (Hstop : p a0 = false).
    { apply (takeWhile_stop p (entries s)). by rewrite head_lookup. }
    apply Z.ltb_ge in Hstop.
    rewrite lookup_drop, Nat.add_0_r in H0.
    etransitivity; [exact Hstop|].
    eapply (Hsorted _ _ a0 b); [|done..]. lia.
  - apply lookup_ge_None in H0. apply lookup_lt_Some in Hj.
    rewrite length_drop in H0. lia.
Qed.

End Sequences.

(** ** The statements at the sample cache *)

Lemma policyOK_later : policyOK Sample.later.
Proof.
  split; [apply NoDup_singleton|].
  intros a Ha. apply list_elem_of_singleton in Ha as ->. by eexists.
Qed.

(** With the setting enabled [needRefresh] does ask for a refresh that it
    does not ask for with the setting disabled: the predicate is live. *)
Lemma needRefresh_depends_on_setting :
  needRefresh (WithRefreshAfterWrite 10 Sample.loading) Sample.e5 2000 = true /\
  needRefresh (WithRefreshAfterWrite 0 Sample.loading) Sample.e5 2000 = false.
Proof. split; reflexivity. Qed.



Lemma load_error_leaves_cache_witness :
  exists s',
    load Sample.sum Sample.currentTime Sample.loading (-1) init
      = Ret (None, Some "negative key") s' /\
    stats s' = [RecordLoadError 10] /\ heap s' = [] /\ table s' = ∅.
Proof.
  destruct (load_error_leaves_cache Sample.sum Sample.currentTime
              Sample.loading (-1) init Sample.ld 0 "negative key"
              eq_refl eq_refl)
    as (s' & Hload & Hstats & Hheap & Htable & _).
  exists s'. split; [exact Hload|]. split; [exact Hstats|].
  split; [exact Hheap | exact Htable].
Defined.



Lemma Get_expired_witness :
  exists s' e',
    Get Sample.sum Sample.currentTime Sample.loading 5 Sample.later
      = Ret (Some 7, None) s' /\
    stats s' = [RecordMisses 1] /\
    heap s' !! 0%nat = Some e' /\
    accessTime e' = 1030 /\
    loading e' = true /\
    tasks s' = [GoRefresh 0%nat].
Proof.
  destruct (Get_expired Sample.sum Sample.currentTime Sample.loading 5
              Sample.later 0%nat Sample.e5 eq_refl eq_refl eq_refl)
    as (s' & e' & Hget & Hstats & Hheap & Hacc & Hload & _ & Htasks & _).
  exists s', e'. repeat split; assumption.
Defined.

Lemma expireEntries_sweeps_witness :
  exists s',
    expireEntries Sample.currentTime Sample.loading Sample.later = Ret tt s' /\
    entries s' = [] /\
    table s' = ∅ /\
    stats s' = [RecordEviction].
Proof.
  destruct (proj2 (expireEntries_sweeps Sample.currentTime Sample.loading
                     Sample.later policyOK_later))
    as (s' & Hrun & _ & _ & _ & Hent & Htab & Hstats & _).
  - reflexivity.
  - exists s'. split; [exact Hrun|]. split; [exact Hent|].
    split; [rewrite Htab; reflexivity | exact Hstats].
Defined.

Lemma refreshAfterWrite_is_not_consulted_witness :
  exists a e,
    table Sample.later !! 5 = Some a /\
    heap Sample.later !! a = Some e /\
    isExpired (WithRefreshAfterWrite 50 Sample.loading) e
      (Sample.currentTime (clock Sample.later)) = true.
Proof.
  destruct (refreshAfterWrite_is_not_consulted Sample.sum Sample.currentTime
              Sample.loading 50)
    as (_ & _ & _ & _ & _ & _ & _ & _ & _ & Hgate).
  apply Hgate. vm_compute. discriminate.
Defined.

Lemma at_most_one_refresh_in_flight_witness :
  let s1 := final (refreshAsync Sample.loading 0%nat Sample.one) in
  let s2 := final (refresh Sample.currentTime Sample.loading 0%nat s1) in
  let s3 := final (refreshAsync Sample.loading 0%nat s2) in
  rtc (RefreshProtocol.callStep Sample.currentTime Sample.loading 0%nat)
    (RefreshProtocol.mkCalls Sample.one 0 0)
    (RefreshProtocol.mkCalls s3 1 1) /\
  RefreshProtocol.submitted 0%nat s3 = 2%nat /\
  RefreshProtocol.flagOf 0%nat s3 = Some true.
Proof.
  intros s1 s2 s3.
  assert (E1 : refreshAsync Sample.loading 0%nat Sample.one = Ret tt s1)
    by (vm_compute; reflexivity).
  assert (E2 : refreshAsync Sample.loading 0%nat s1 = Ret tt s1)
    by (vm_compute; reflexivity).
  assert (E3 : refresh Sample.currentTime Sample.loading 0%nat s1 = Ret tt s2)
    by (vm_compute; reflexivity).
  assert (E4 : refreshAsync Sample.loading 0%nat s2 = Ret tt s3)
    by (vm_compute; reflexivity).
  assert (Hreach :
    rtc (RefreshProtocol.callStep Sample.currentTime Sample.loading 0%nat)
      (RefreshProtocol.mkCalls Sample.one 0 0)
      (RefreshProtocol.mkCalls s3 1 1)).
  { apply (rtc_l _ _ (RefreshProtocol.mkCalls s1 1 0)).
    { exact (RefreshProtocol.call_refreshAsync Sample.currentTime
               Sample.loading 0%nat Sample.one s1 0 0 E1). }
    apply (rtc_l _ _ (RefreshProtocol.mkCalls s1 1 0)).
    { exact (RefreshProtocol.call_refreshAsync Sample.currentTime
               Sample.loading 0%nat s1 s1 1 0 E2). }
    apply (rtc_l _ _ (RefreshProtocol.mkCalls s2 0 1)).
    { exact (RefreshProtocol.call_refresh Sample.currentTime
               Sample.loading 0%nat s1 s2 0 0 E3). }
    apply rtc_once.
    exact (RefreshProtocol.call_refreshAsync Sample.currentTime
             Sample.loading 0%nat s2 s3 0 1 E4). }
  split; [exact Hreach|].
  destruct (at_most_one_refresh_in_flight Sample.currentTime Sample.loading
              0%nat (RefreshProtocol.mkCalls Sample.one 0 0)
              (RefreshProtocol.mkCalls s3 1 1))
    as (_ & Hsub & Hflag & _).
  - repeat split.
  - exact Hreach.
  - split; [exact Hsub | exact Hflag].
Defined.

Lemma WithMaximumSize_normalizes_witness :
  cap (WithMaximumSize (-3) newLocalCache) = 0 /\
  cap (WithMaximumSize (2 ^ 31) newLocalCache) = 2 ^ 30 /\
  table (final (Put Sample.sum Sample.currentTime
                  (WithMaximumSize (-3) newLocalCache) 5 7 init)) !! 5
    = Some 0%nat /\
  heap (final (Put Sample.sum Sample.currentTime
                 (WithMaximumSize (-3) newLocalCache) 5 7 init)) !! 0%nat
    = Some (putEntry Sample.sum Sample.currentTime 5 7 init).
Proof.
  apply (WithMaximumSize_normalizes Sample.sum Sample.currentTime (-3) (2 ^ 31)
           newLocalCache (WithMaximumSize (-3) newLocalCache) 5 7 init).
  - lia.
  - lia.
  - reflexivity.
  - reflexivity.
Defined.

Lemma Get_absent_without_loader_panics_witness :
  Get Sample.sum Sample.currentTime Sample.plain 9 Sample.one
    = Panicked "cache loader function must be set"
        (set_stats (fun l => l ++ [RecordMisses 1]) Sample.one).
Proof.
  apply Get_absent_without_loader_panics; reflexivity.
Defined.

Lemma tableOK_one : tableOK Sample.one.
Proof.
  intros k a Hk. unfold Sample.one in Hk. simpl in Hk.
  apply lookup_singleton_Some in Hk as [<- <-]. by eexists.
Qed.

Lemma GetIfPresent_only_touches_access_time_witness :
  table (final (GetIfPresent Sample.sum Sample.currentTime Sample.plain 5
                  Sample.one)) = table Sample.one.
Proof.
  exact (proj1 (GetIfPresent_only_touches_access_time Sample.sum
                  Sample.currentTime Sample.plain 5 Sample.one)).
Defined.

Lemma Get_loads_only_absent_keys_witness :
  loads (final (Get Sample.sum Sample.currentTime Sample.loading 5 Sample.later))
  = loads Sample.later.
Proof.
  apply (Get_loads_only_absent_keys Sample.sum Sample.currentTime
           Sample.loading 5 Sample.later 0%nat).
  reflexivity.
Defined.

Lemma constructors_fix_loader_and_bound_cap_witness :
  loader (New [WithMaximumSize (-1); WithExpireAfterAccess 5]) = None /\
  loader (NewLoadingCache Sample.ld [WithMaximumSize (-1); WithExpireAfterAccess 5])
    = Some Sample.ld /\
  0 <= cap (New [WithMaximumSize (-1); WithExpireAfterAccess 5]) <= 2 ^ 30 /\
  0 <= cap (NewLoadingCache Sample.ld
              [WithMaximumSize (-1); WithExpireAfterAccess 5]) <= 2 ^ 30.
Proof.
  apply (constructors_fix_loader_and_bound_cap Sample.ld
           [WithMaximumSize (-1); WithExpireAfterAccess 5]).
  repeat constructor.
Defined.

Lemma isExpired_mono_witness :
  isExpired Sample.loading Sample.e5 2000 = true.
Proof.
  apply (isExpired_mono Sample.loading Sample.e5 1030 2000); [lia | reflexivity].
Defined.

Lemma Get_absent_loads_witness :
  exists s',
    Get Sample.sum Sample.currentTime Sample.loading 8 init
      = Ret (Some 16, None) s' /\
    table s' = ∅ /\ addEntry s' = [0%nat] /\ loads s' = 1%nat.
Proof.
  destruct (Get_absent_loads Sample.sum Sample.currentTime Sample.loading 8
              init Sample.ld 16 eq_refl eq_refl eq_refl eq_refl)
    as (s' & Hget & _ & _ & Hadd & Htab & Hloads).
  exists s'. split; [exact Hget|]. split; [exact Htab|].
  split; [exact Hadd | exact Hloads].
Defined.


Lemma Invalidate_Put_GetIfPresent_witness :
  let s1 := final (Invalidate Sample.sum Sample.plain 5 Sample.one) in
  let s2 := final (Put Sample.sum Sample.currentTime Sample.plain 5 9 s1) in
  exists s3,
    GetIfPresent Sample.sum Sample.currentTime Sample.plain 5 s2
      = Ret (None, false) s3.
Proof.
  intros s1 s2.
  destruct (Invalidate_Put_GetIfPresent Sample.sum Sample.currentTime
              Sample.plain 5 9 Sample.one 0%nat Sample.e5 s1 s2
              eq_refl eq_refl eq_refl eq_refl)
    as [_ Hget].
  eexists. rewrite Hget. reflexivity.
Defined.

Lemma InvalidateAll_then_GetIfPresent_witness :
  let s1 := final (InvalidateAll Sample.plain Sample.one) in
  let s2 := afterCall Sample.sum Sample.currentTime Sample.plain (CallPut 5 9)
              (afterCall Sample.sum Sample.currentTime Sample.plain
                 (CallPut 6 8) s1) in
  notFound (GetIfPresent Sample.sum Sample.currentTime Sample.plain 6 s1) /\
  notFound (GetIfPresent Sample.sum Sample.currentTime Sample.plain 5 s2).
Proof.
  intros s1 s2.
  destruct (InvalidateAll_then_GetIfPresent Sample.sum Sample.currentTime
              Sample.plain Sample.one s1 s2 5 6)
    as [Hnow Hlater].
  - exact tableOK_one.
  - reflexivity.
  - eapply rtc_l; [by exists (CallPut 6 8)|].
    apply rtc_once. by exists (CallPut 5 9).
  - split; [exact Hnow|]. apply Hlater. by eexists.
Defined.

Lemma processEntries_close_drains_witness :
  exists s',
    processEntries Sample.currentTime Sample.policy_add Sample.policy_hit
      (WithRemovalListener Sample.plain) CloseCh Sample.one = Ret false s' /\
    table s' = ∅ /\
    length (removed s') = 1%nat.
Proof.
  destruct (processEntries_close_drains Sample.currentTime Sample.policy_add
              Sample.policy_hit (WithRemovalListener Sample.plain) Sample.one
              tableOK_one)
    as (s' & Hrun & Htab & _ & Hlen & _).
  exists s'. split; [exact Hrun|]. split; [exact Htab | exact Hlen].
Defined.

Lemma remove_twice_witness :
  let s1 := final (remove (WithRemovalListener Sample.plain) 0%nat Sample.one) in
  removed s1 = [(5, 7)] /\
  remove (WithRemovalListener Sample.plain) 0%nat s1 = Ret tt s1.
Proof.
  intros s1. split; [reflexivity|].
  apply (remove_twice (WithRemovalListener Sample.plain) 0%nat Sample.one s1).
  reflexivity.
Defined.

Lemma readCount_stays_in_range_witness :
  0 <= readCount (final (postReadCleanup Sample.currentTime Sample.loading
                           Sample.later)) <= drainThreshold /\
  readCount (final (postWriteCleanup Sample.currentTime Sample.loading
                      Sample.later)) = 0.
Proof.
  apply readCount_stays_in_range. by vm_compute.
Defined.

Lemma refresh_error_keeps_value_witness :
  exists s',
    refresh Sample.currentTime Sample.loading 0%nat Sample.neg = Ret tt s' /\
    heap s' = [mkEntry (-1) (-1) 7 1000 1000 false false] /\
    addEntry s' = [].
Proof.
  destruct (refresh_error_keeps_value Sample.currentTime Sample.loading 0%nat
              Sample.neg Sample.eNeg Sample.ld 0 "negative key"
              eq_refl eq_refl eq_refl)
    as (s' & Hrun & Hheap & _ & _ & _ & Hadd & _).
  exists s'. split; [exact Hrun|]. split; [exact Hheap | exact Hadd].
Defined.

Lemma Get_stale_then_refreshed_witness :
  exists s1 s2 s3,
    Get Sample.sum Sample.currentTime Sample.loading30 5 Sample.four
      = Ret (Some 7, None) s1 /\
    refresh Sample.currentTime Sample.loading30 0%nat s1 = Ret tt s2 /\
    Get Sample.sum Sample.currentTime Sample.loading30 5 s2
      = Ret (Some 10, None) s3 /\
    loads s3 = 1%nat.
Proof.
  destruct (Get_stale_then_refreshed Sample.sum Sample.currentTime
              Sample.loading30 5 Sample.four 0%nat Sample.e5 Sample.ld 10
              eq_refl eq_refl eq_refl eq_refl eq_refl eq_refl eq_refl eq_refl
              eq_refl)
    as (s1 & s2 & s3 & Hget1 & _ & Hrun & Hget2 & _ & Hloads & _).
  exists s1, s2, s3. repeat split; assumption.
Defined.

Lemma Refresh_twice_witness :
  exists s1,
    Refresh Sample.sum Sample.currentTime Sample.loading 5 Sample.one = Ret tt s1 /\
    Refresh Sample.sum Sample.currentTime Sample.loading 5 s1 = Ret tt s1 /\
    tasks s1 = [GoRefresh 0%nat].
Proof.
  exact (Refresh_twice Sample.sum Sample.currentTime Sample.loading 5
           Sample.one 0%nat Sample.e5 Sample.ld eq_refl eq_refl eq_refl).
Defined.

Lemma policyOK_two : policyOK Sample.two.
Proof.
  split.
  - apply NoDup_cons. split; [|apply NoDup_singleton].
    by intros ?%list_elem_of_singleton.
  - intros a Ha. apply elem_of_cons in Ha as [->|Ha]; [by eexists|].
    apply list_elem_of_singleton in Ha as ->. by eexists.
Qed.

Lemma accessSorted_two : accessSorted (heap Sample.two) (entries Sample.two).
Proof.
  intros [|[|i]] [|[|j]] a b Hij Hi Hj; simpl in Hi, Hj; simplify_eq;
    try lia; by vm_compute.
Qed.

Lemma expireEntries_complete_when_sorted_witness :
  exists s',
    expireEntries Sample.currentTime Sample.loading Sample.two = Ret tt s' /\
    entries s' = [1%nat] /\
    1025 <= accessOf (heap s') 1%nat.
Proof.
  destruct (expireEntries_complete_when_sorted Sample.currentTime
              Sample.loading Sample.two policyOK_two accessSorted_two)
    as (s' & Hrun & Hleft).
  - reflexivity.
  - vm_compute. lia.
  - exists s'. split; [exact Hrun|].
    assert (Hent : entries s' = [1%nat]).
    { vm_compute in Hrun. by injection Hrun as <-. }
    split; [exact Hent|].
    apply (Hleft 1%nat). rewrite Hent. by left.
Defined.

Lemma InvalidateAll_then_maintenance_empties_witness :
  table (final (processEntries Sample.currentTime Sample.policy_add
                  Sample.policy_hit Sample.plain DeleteCh
                  (final (InvalidateAll Sample.plain Sample.one)))) = ∅.
Proof.
  apply (InvalidateAll_then_maintenance_empties Sample.currentTime
           Sample.policy_add Sample.policy_hit Sample.plain Sample.one).
  - exact tableOK_one.
  - reflexivity.
  - reflexivity.
Defined.

Lemma Put_keeps_access_expiry_witness :
  exists s2,
    GetIfPresent Sample.sum Sample.currentTime Sample.loading 5
      (final (Put Sample.sum Sample.currentTime Sample.loading 5 9 Sample.later))
    = Ret (None, false) s2.
Proof.
  eexists.
  rewrite (Put_keeps_access_expiry Sample.sum Sample.currentTime Sample.loading
             5 9 Sample.later 0%nat Sample.e5); reflexivity.
Defined.
